(** * substack_reader: a shallow embedding of [src/substack_reader.py]

    The program fetches pages of one Substack publication and turns their
    markup into plain text with Python's [re] module.  The embedding has
    three layers:

    - [PyStr]: Python [str] values as lists of code points, with the few
      [str] methods the program calls;
    - [Re]: the fragment of Python's regular expressions the program uses,
      as a syntax tree run by a backtracking matcher with the priorities of
      [re] (greedy and lazy repetition, ordered alternation, groups,
      lookahead), and [re.search], [re.findall] and [re.sub] on top of it;
    - the program's own functions, under their source names. *)

From Stdlib Require Import String Ascii List NArith Bool Arith Lia.
Import ListNotations.

Set Implicit Arguments.

(* ================================================================== *)
(** ** Python strings *)

Module PyStr.

(** A [str] is a sequence of Unicode code points. *)
Definition char := N.
Definition str := list char.

(** ASCII literals: [u "abc"] is the Python literal ['abc']. *)
Definition u (s : string) : str := map N_of_ascii (list_ascii_of_string s).

Definition LF : char := 10%N.

Definition char_eqb (a b : char) : bool := N.eqb a b.

(** [str.isspace] on one code point, which is also what [\s] matches in a
    [str] pattern and what [str.strip()] removes: the code points CPython
    lists in [_PyUnicode_IsWhitespace]. *)
Definition isspace (c : char) : bool :=
  (((9 <=? c) && (c <=? 13)) || ((28 <=? c) && (c <=? 32))
   || (c =? 133) || (c =? 160) || (c =? 5760)
   || ((8192 <=? c) && (c <=? 8202))
   || (c =? 8232) || (c =? 8233) || (c =? 8239) || (c =? 8287)
   || (c =? 12288))%N.

Fixpoint str_eqb (a b : str) : bool :=
  match a, b with
  | [], [] => true
  | x :: a', y :: b' => char_eqb x y && str_eqb a' b'
  | _, _ => false
  end.

(** [strip_prefix w s] is [Some s'] when [s = w ++ s']. *)
Fixpoint strip_prefix (w s : str) : option str :=
  match w with
  | [] => Some s
  | x :: w' =>
      match s with
      | y :: s' => if char_eqb x y then strip_prefix w' s' else None
      | [] => None
      end
  end.

(** [s.startswith(w)] *)
Definition startswith (s w : str) : bool :=
  match strip_prefix w s with Some _ => true | None => false end.

(** [w in s] *)
Fixpoint contains (w s : str) : bool :=
  startswith s w || match s with [] => false | _ :: s' => contains w s' end.

(** [s.lstrip()], [s.rstrip()] and [s.strip()] with no argument. *)
Fixpoint lstrip (s : str) : str :=
  match s with
  | c :: s' => if isspace c then lstrip s' else s
  | [] => []
  end.

Definition rstrip (s : str) : str := rev (lstrip (rev s)).

Definition strip (s : str) : str := rstrip (lstrip s).

(** [s.rstrip(chars)] *)
Fixpoint lstrip_chars (chars s : str) : str :=
  match s with
  | c :: s' => if existsb (char_eqb c) chars then lstrip_chars chars s' else s
  | [] => []
  end.

Definition rstrip_chars (chars s : str) : str :=
  rev (lstrip_chars chars (rev s)).

(** [s.split(sep)] for a one-character separator: the pieces between the
    occurrences of [sep]; never an empty list. *)
Fixpoint split (sep : char) (s : str) : list str :=
  match s with
  | [] => [[]]
  | c :: s' =>
      if char_eqb c sep then [] :: split sep s'
      else match split sep s' with
           | p :: ps => (c :: p) :: ps
           | [] => [[c]]
           end
  end.

(** [s.replace(a, b)] for one-character [a] and [b]. *)
Definition replace (a b : char) (s : str) : str :=
  map (fun c => if char_eqb c a then b else c) s.

(** [sep.join(parts)] *)
Fixpoint join (sep : str) (parts : list str) : str :=
  match parts with
  | [] => []
  | [p] => p
  | p :: ps => p ++ sep ++ join sep ps
  end.

(** [c * n] for a one-character string [c]. *)
Definition repeat_char (c : char) (n : nat) : str := repeat c n.

End PyStr.
Import PyStr.

(* ================================================================== *)
(** ** Python regular expressions *)

Module Re.

(** Members of a bracket class: a character or the escape [\s]. *)
Inductive citem :=
| Ch (c : char)
| Ws.

(** One-character matchers: [.] under [re.DOTALL], [[...]] and [[^...]]. *)
Inductive cset :=
| Dot
| Cls (items : list citem)
| NCls (items : list citem).

Definition citem_mem (x : char) (it : citem) : bool :=
  match it with
  | Ch c => char_eqb x c
  | Ws => isspace x
  end.

Definition cset_mem (cs : cset) (x : char) : bool :=
  match cs with
  | Dot => true
  | Cls items => existsb (citem_mem x) items
  | NCls items => negb (existsb (citem_mem x) items)
  end.

(** The patterns of the program: every repetition in them is over a
    one-character matcher, so [Rep] takes a [cset]. [Rep cs m true] is the
    greedy [cs{m,}] ([*] for 0, [+] for 1), [Rep cs m false] the lazy
    [cs{m,}?]. *)
Inductive regex :=
| Lit (w : str)                            (* a literal run of characters *)
| One (cs : cset)                          (* one character *)
| Rep (cs : cset) (min : nat) (greedy : bool)
| Cat (r1 r2 : regex)
| Alt (r1 r2 : regex)                      (* r1|r2, r1 tried first *)
| Group (n : nat) (r : regex)              (* capturing group number n *)
| Ahead (r : regex).                       (* (?=r) *)

(** Group spans, as offsets from the start of the match; the most recent
    binding of a group comes first. *)
Definition caps := list (nat * (nat * nat)).

Section Matcher.
Variable A : Type.

(** Greedy repetition: take a character when there is one, and only when
    everything after it fails stop here. *)
Fixpoint rep_greedy (cs : cset) (min : nat) (s : str) (i : nat)
         (k : str -> nat -> option A) {struct s} : option A :=
  let stop := match min with 0 => k s i | S _ => None end in
  match s with
  | x :: s' =>
      if cset_mem cs x then
        match rep_greedy cs (pred min) s' (S i) k with
        | Some r => Some r
        | None => stop
        end
      else stop
  | [] => stop
  end.

(** Lazy repetition: stop as soon as the rest matches, and only when it
    does not take one more character. *)
Fixpoint rep_lazy (cs : cset) (min : nat) (s : str) (i : nat)
         (k : str -> nat -> option A) {struct s} : option A :=
  let more :=
    match s with
    | x :: s' =>
        if cset_mem cs x then rep_lazy cs (pred min) s' (S i) k else None
    | [] => None
    end in
  match min with
  | 0 => match k s i with
         | Some r => Some r
         | None => more
         end
  | S _ => more
  end.
End Matcher.

(** The backtracking matcher, in continuation-passing style: [bt r s i g k]
    matches [r] at the head of [s], [i] characters into the match and with
    the groups [g] bound so far, and hands what is left to [k]; when [k]
    fails the next alternative of [r] is tried. *)
Fixpoint bt (A : Type) (r : regex) (s : str) (i : nat) (g : caps)
         (k : str -> nat -> caps -> option A) {struct r} : option A :=
  match r with
  | Lit w =>
      match strip_prefix w s with
      | Some s' => k s' (i + length w) g
      | None => None
      end
  | One cs =>
      match s with
      | x :: s' => if cset_mem cs x then k s' (S i) g else None
      | [] => None
      end
  | Rep cs min true => rep_greedy cs min s i (fun s' j => k s' j g)
  | Rep cs min false => rep_lazy cs min s i (fun s' j => k s' j g)
  | Cat r1 r2 => bt r1 s i g (fun s' j g' => bt r2 s' j g' k)
  | Alt r1 r2 =>
      match bt r1 s i g k with
      | Some x => Some x
      | None => bt r2 s i g k
      end
  | Group n r1 => bt r1 s i g (fun s' j g' => k s' j ((n, (i, j)) :: g'))
  | Ahead r1 =>
      match bt r1 s i g (fun _ _ g' => Some g') with
      | Some g' => k s i g'
      | None => None
      end
  end.

(** [pattern.match] at the head of [s]: the length of the match and its
    groups. *)
Definition match_at (r : regex) (s : str) : option (nat * caps) :=
  bt r s 0 [] (fun _ j g => Some (j, g)).

(** The same when an empty match is not acceptable (the matcher's
    "must advance" mode, used right after an empty match). *)
Definition match_adv (r : regex) (s : str) : option (nat * caps) :=
  bt r s 0 [] (fun _ j g => match j with 0 => None | S _ => Some (j, g) end).

(** A match object: where the match starts, the text from there on, the
    length of the match and the groups. *)
Record rmatch := Match {
  m_start : nat;
  m_text : str;
  m_len : nat;
  m_caps : caps
}.

Fixpoint lookup (n : nat) (g : caps) : option (nat * nat) :=
  match g with
  | [] => None
  | (m, span) :: g' => if Nat.eqb n m then Some span else lookup n g'
  end.

(** [m.group(0)] *)
Definition group0 (m : rmatch) : str := firstn (m_len m) (m_text m).

(** [m.group(n)] for a group that took part in the match (in the
    program's patterns group 1 always does); the empty string otherwise,
    as [findall] gives. *)
Definition group (m : rmatch) (n : nat) : str :=
  match lookup n (m_caps m) with
  | Some (a, b) => firstn (b - a) (skipn a (m_text m))
  | None => []
  end.

(** [re.search]: the match at the leftmost position that has one. *)
Fixpoint search_from (r : regex) (s : str) (pos : nat) : option rmatch :=
  match match_at r s with
  | Some (n, g) => Some (Match pos s n g)
  | None =>
      match s with
      | [] => None
      | _ :: s' => search_from r s' (S pos)
      end
  end.

Definition search (r : regex) (s : str) : option rmatch := search_from r s 0.

(** The matches that start at the head of [s], in the order the scanning
    loop of [findall] and [sub] finds them: one match, or an empty match
    and then a non-empty one at the same place. *)
Definition attempt (r : regex) (s : str) : list (nat * caps) :=
  match match_at r s with
  | None => []
  | Some (S n, g) => [(S n, g)]
  | Some (0, g) =>
      (0, g) :: match match_adv r s with
                | Some m => [m]
                | None => []
                end
  end.

(** How many characters the matches found at one position consume. *)
Definition consumed (ms : list (nat * caps)) : nat :=
  fold_left (fun _ m => fst m) ms 0.

(** The scanning loop: all non-overlapping matches, left to right.
    [skip] counts the characters of the last match still to step over. *)
Fixpoint finditer_from (r : regex) (s : str) (pos skip : nat) : list rmatch :=
  match skip with
  | S k =>
      match s with
      | [] => []
      | _ :: s' => finditer_from r s' (S pos) k
      end
  | 0 =>
      let ms := attempt r s in
      map (fun m => Match pos s (fst m) (snd m)) ms ++
      match s with
      | [] => []
      | _ :: s' => finditer_from r s' (S pos) (pred (consumed ms))
      end
  end.

Definition finditer (r : regex) (s : str) : list rmatch :=
  finditer_from r s 0 0.

(** [re.findall] for a pattern without groups: the matched texts. *)
Definition findall0 (r : regex) (s : str) : list str :=
  map group0 (finditer r s).

(** [re.findall] for a pattern with one group: the texts of group 1. *)
Definition findall1 (r : regex) (s : str) : list str :=
  map (fun m => group m 1) (finditer r s).

(** [re.sub] with a replacement that has no escapes: every match is
    replaced by [repl], the characters between matches are kept. *)
Fixpoint sub_from (r : regex) (repl : str) (s : str) (skip : nat) : str :=
  match skip with
  | S k =>
      match s with
      | [] => []
      | _ :: s' => sub_from r repl s' k
      end
  | 0 =>
      let ms := attempt r s in
      concat (map (fun _ => repl) ms) ++
      match s with
      | [] => []
      | x :: s' =>
          match consumed ms with
          | 0 => x :: sub_from r repl s' 0
          | S k => sub_from r repl s' k
          end
      end
  end.

Definition sub (r : regex) (repl : str) (s : str) : str :=
  sub_from r repl s 0.

End Re.
Import Re.

(* ================================================================== *)
(** ** The program *)

Arguments u _%_string.

(** One ASCII character. *)
Definition ch (a : ascii) : char := N_of_ascii a.
Arguments ch _%_char.

Definition DQ : char := 34%N.   (* the double quote *)
Definition SQ : char := 39%N.   (* the single quote *)

Infix ";;" := Cat (at level 61, right associativity).

(** Character classes of the patterns. In the comments that quote a
    pattern of the source, Q stands for the double quote character. *)
Definition not_gt : cset := NCls [Ch (ch ">")].        (* [^>] *)
Definition not_dq : cset := NCls [Ch DQ].              (* [^Q], Q the double quote *)
Definition space : cset := Cls [Ws].                   (* \s *)
Definition newline : cset := Cls [Ch LF].              (* \n *)

Definition TRADE_COMPANION_URL : str := u "https://tradecompanion.substack.com".

(** *** Outcomes and the outside world *)

(** A call returns a value or raises an exception that nobody caught. *)
Inductive result (A : Type) :=
| Ok (a : A)
| Raised.
Arguments Ok {A} a.
Arguments Raised {A}.

(** A Python [dict] from strings to strings, as the list of its items. *)
Definition dict := list (str * str).

Fixpoint dict_set (d : dict) (key value : str) : dict :=
  match d with
  | [] => [(key, value)]
  | (k0, v0) :: d' =>
      if str_eqb k0 key then (k0, value) :: d'
      else (k0, v0) :: dict_set d' key value
  end.

(** What is at [COOKIES_FILE] during a run: nothing, a JSON array of
    objects of which [cookies] lists the [name] and [value] members, or
    something that [json.loads] or the comprehension over it rejects with
    an exception (text that is not JSON, an entry without a [name]). *)
Inductive cookie_file :=
| NoFile
| CookieList (cookies : list (str * str))
| Malformed.

(** The world a run sees: the cookie file, and the site's answer to
    [requests.get(url, cookies=..., headers=...)] followed by
    [raise_for_status()]: the response text, or [None] when either of the
    two raises (network error, status that is not a success). The headers
    are the same in every request. *)
Record world := World {
  cookies_at : cookie_file;
  http_get : str -> dict -> option str
}.

Definition get_cookies_dict (w : world) : result dict :=
  match cookies_at w with
  | NoFile => Ok []
  | CookieList cookies_data =>
      Ok (fold_left (fun d cookie => dict_set d (fst cookie) (snd cookie))
                    cookies_data [])
  | Malformed => Raised
  end.

(** *** clean_html_text *)

Definition tag_pattern : regex :=                       (* <[^>]+> *)
  Lit (u "<") ;; Rep not_gt 1 true ;; Lit (u ">").

Definition clean_html_text (html_text : str) : str :=
  let text := sub tag_pattern (u " ") html_text in
  let text := sub (Lit (u "&nbsp;")) (u " ") text in
  let text := sub (Lit (u "&amp;")) (u "&") text in
  let text := sub (Lit (u "&lt;")) (u "<") text in
  let text := sub (Lit (u "&gt;")) (u ">") text in
  let text := sub (Lit (u "&quot;")) [DQ] text in
  let text := sub (Lit (u "&#39;")) [SQ] text in
  let text := sub (Rep space 1 true) (u " ") text in
  let text := sub (Rep newline 1 true) [LF] text in
  strip text.

(** *** fetch_substack_article_text *)

Record article := Article {
  a_title : str;
  a_author : str;
  a_date : str;
  a_content : str
}.

(** <h1[^>]*?>(.*?)</h1> with re.DOTALL *)
Definition title_pattern : regex :=
  Lit (u "<h1") ;; Rep not_gt 0 false ;; Lit (u ">") ;;
  Group 1 (Rep Dot 0 false) ;; Lit (u "</h1>").

(** <time[^>]*?datetime=Q([^Q]+)Q *)
Definition date_pattern : regex :=
  Lit (u "<time") ;; Rep not_gt 0 false ;; Lit (u "datetime=" ++ [DQ]) ;;
  Group 1 (Rep not_dq 1 true) ;; Lit [DQ].

(** <div[^>]*?class=Q[^Q]*?body[^Q]*?Q[^>]*?>(.*?)</div>\s*<(footer|div\s+class=Q[^Q]*?comments)
    with re.DOTALL *)
Definition content_pattern : regex :=
  Lit (u "<div") ;; Rep not_gt 0 false ;; Lit (u "class=" ++ [DQ]) ;;
  Rep not_dq 0 false ;; Lit (u "body") ;; Rep not_dq 0 false ;; Lit [DQ] ;;
  Rep not_gt 0 false ;; Lit (u ">") ;;
  Group 1 (Rep Dot 0 false) ;; Lit (u "</div>") ;; Rep space 0 true ;;
  Lit (u "<") ;;
  Group 2 (Alt (Lit (u "footer"))
               (Lit (u "div") ;; Rep space 1 true ;; Lit (u "class=" ++ [DQ]) ;;
                Rep not_dq 0 false ;; Lit (u "comments"))).

(** <article[^>]*?>(.*?)</article> with re.DOTALL *)
Definition article_pattern : regex :=
  Lit (u "<article") ;; Rep not_gt 0 false ;; Lit (u ">") ;;
  Group 1 (Rep Dot 0 false) ;; Lit (u "</article>").

(** <script[^>]*?>.*?</script> and its three siblings, with re.DOTALL *)
Definition script_pattern : regex :=
  Lit (u "<script") ;; Rep not_gt 0 false ;; Lit (u ">") ;;
  Rep Dot 0 false ;; Lit (u "</script>").
Definition style_pattern : regex :=
  Lit (u "<style") ;; Rep not_gt 0 false ;; Lit (u ">") ;;
  Rep Dot 0 false ;; Lit (u "</style>").
Definition svg_pattern : regex :=
  Lit (u "<svg") ;; Rep not_gt 0 false ;; Lit (u ">") ;;
  Rep Dot 0 false ;; Lit (u "</svg>").
Definition figure_pattern : regex :=
  Lit (u "<figure") ;; Rep not_gt 0 false ;; Lit (u ">") ;;
  Rep Dot 0 false ;; Lit (u "</figure>").

(** [str(i)] for a one-digit [i]. *)
Definition digit (i : nat) : str := [N.of_nat (48 + i)].

(** f'<h{i}[^>]*?>(.*?)</h{i}>' with re.DOTALL *)
Definition heading_pattern (i : nat) : regex :=
  Lit (u "<h" ++ digit i) ;; Rep not_gt 0 false ;; Lit (u ">") ;;
  Group 1 (Rep Dot 0 false) ;; Lit (u "</h" ++ digit i ++ u ">").

(** <p[^>]*?>(.*?)</p> with re.DOTALL *)
Definition p_pattern : regex :=
  Lit (u "<p") ;; Rep not_gt 0 false ;; Lit (u ">") ;;
  Group 1 (Rep Dot 0 false) ;; Lit (u "</p>").

(** <li[^>]*?>(.*?)</li> with re.DOTALL *)
Definition li_pattern : regex :=
  Lit (u "<li") ;; Rep not_gt 0 false ;; Lit (u ">") ;;
  Group 1 (Rep Dot 0 false) ;; Lit (u "</li>").

(** The marker the source puts before a list item: the four code points
    of its string literal, the last one a space. *)
Definition bullet : str := [226; 8364; 162; 32]%N.

(** Truth value of a string in [if cleaned_p:]. *)
Definition nonempty (s : str) : bool :=
  match s with [] => false | _ :: _ => true end.

(** Lines 82-83: the title. *)
Definition extract_title (text : str) : str :=
  match search title_pattern text with
  | Some title_match => clean_html_text (group title_match 1)
  | None => u "Unknown Title"
  end.

(** Lines 89-91: the date. *)
Definition extract_date (text : str) : str :=
  match search date_pattern text with
  | Some date_match => group date_match 1
  | None => []
  end.

(** Lines 95-101: the match of the article container, by the first
    pattern and then by the alternative one. *)
Definition content_match (text : str) : option rmatch :=
  match search content_pattern text with
  | Some m => Some m
  | None => search article_pattern text
  end.

(** Lines 107-110: scripts, styles, drawings and figures are cut out. *)
Definition remove_non_content (html_content : str) : str :=
  let html_content := sub script_pattern [] html_content in
  let html_content := sub style_pattern [] html_content in
  let html_content := sub svg_pattern [] html_content in
  let html_content := sub figure_pattern [] html_content in
  html_content.

(** Lines 113-133: the text blocks of the article container. *)
Definition text_blocks (html_content : str) : list str :=
  let html_content := remove_non_content html_content in
  let text_blocks : list str := [] in
  let text_blocks :=
    fold_left
      (fun text_blocks i =>
         let headings := findall1 (heading_pattern i) html_content in
         fold_left
           (fun text_blocks h =>
              text_blocks ++
              [repeat_char (ch "#") (i - 1) ++ u " " ++ clean_html_text h])
           headings text_blocks)
      (seq 2 5) text_blocks in
  let paragraphs := findall1 p_pattern html_content in
  let text_blocks :=
    fold_left
      (fun text_blocks p =>
         let cleaned_p := clean_html_text p in
         if nonempty cleaned_p then text_blocks ++ [cleaned_p]
         else text_blocks)
      paragraphs text_blocks in
  let list_items := findall1 li_pattern html_content in
  let text_blocks :=
    fold_left
      (fun text_blocks li =>
         let cleaned_li := clean_html_text li in
         if nonempty cleaned_li then text_blocks ++ [bullet ++ cleaned_li]
         else text_blocks)
      list_items text_blocks in
  text_blocks.

(** Lines 103-141: the text of the article. *)
Definition text_content (text : str) : str :=
  match content_match text with
  | Some m =>
      let text_content := join [LF; LF] (text_blocks (group m 1)) in
      sub (Rep newline 3 true) [LF; LF] text_content
  | None => u "Could not extract article content."
  end.

(** Lines 81-148: the record built from the response text. *)
Definition article_of_response (text : str) : article :=
  let title := extract_title text in
  let author := u "Adam Mancini" in
  let date := extract_date text in
  Article title author date (text_content text).

(** The cookies are read before the [try]; what the [try] guards is the
    request, and everything after it cannot raise. *)
Definition fetch_substack_article_text (w : world) (url : str)
  : result (option article) :=
  match get_cookies_dict w with
  | Raised => Raised
  | Ok cookies =>
      match http_get w url cookies with
      | Some text => Ok (Some (article_of_response text))
      | None => Ok None
      end
  end.

(** *** fetch_trade_companion_articles *)

Record summary := Summary {
  s_title : str;
  s_url : str;
  s_date : str;
  s_preview : str
}.

(** https://tradecompanion\.substack\.com/p/[^/\sQ\']+(?=[\sQ\']) *)
Definition url_pattern : regex :=
  Lit (u "https://tradecompanion.substack.com/p/") ;;
  Rep (NCls [Ch (ch "/"); Ws; Ch DQ; Ch SQ]) 1 true ;;
  Ahead (One (Cls [Ws; Ch DQ; Ch SQ])).

Definition excluded_slug : str := u "my-trade-methodology-fundamentals".

(** Lines 172-181: the URLs of the page that pass the filter, in the
    order of the page. *)
Definition article_urls (text : str) : list str :=
  let url_matches := findall0 url_pattern text in
  fold_left
    (fun article_urls url =>
       if startswith url (rstrip_chars (u "/") TRADE_COMPANION_URL)
          && contains (u "/p/") url
       then if negb (contains excluded_slug url) then article_urls ++ [url]
            else article_urls
       else article_urls)
    url_matches [].

(** Lines 187-190: duplicates removed, the first occurrence kept. *)
Definition unique_urls (article_urls : list str) : list str :=
  fold_left
    (fun unique_urls url =>
       if negb (existsb (str_eqb url) unique_urls) then unique_urls ++ [url]
       else unique_urls)
    article_urls [].

Section Service.

(** [str.title] of the Python runtime, which needs Unicode's case
    tables. *)
Variable str_title : str -> str.

(** Lines 193-203: one entry for a URL. *)
Definition article_entry (url : str) : summary :=
  let slug := last (split (ch "/") url) [] in
  let title := str_title (replace (ch "-") (ch " ") slug) in
  Summary title url [] [].

(** Lines 167-205: the list built from the response text. *)
Definition articles_of_response (text : str) : list summary :=
  fold_left (fun articles url => articles ++ [article_entry url])
            (unique_urls (article_urls text)) [].

Definition fetch_trade_companion_articles (w : world)
  : result (list summary) :=
  match get_cookies_dict w with
  | Raised => Raised
  | Ok cookies =>
      match http_get w TRADE_COMPANION_URL cookies with
      | Some text => Ok (articles_of_response text)
      | None => Ok []
      end
  end.

(** *** get_latest_trade_companion_adam_mancini_article *)

Definition unavailable_message : str :=
  u "Failed to fetch articles from Trade Companion. The service might be temporarily unavailable.".

Definition failed_message : str :=
  u "Failed to fetch the latest article. The article might not be accessible.".

Definition formatted_article (article_data : article) (url : str) : str :=
  [LF] ++ u "Title: " ++ a_title article_data ++
  [LF] ++ u "Author: " ++ a_author article_data ++
  [LF] ++ u "Published: " ++ a_date article_data ++
  [LF] ++ u "URL: " ++ url ++
  [LF] ++ [LF] ++ a_content article_data ++ [LF].

Definition get_latest_trade_companion_adam_mancini_article (w : world)
  : result str :=
  match fetch_trade_companion_articles w with
  | Raised => Raised
  | Ok [] => Ok unavailable_message
  | Ok (latest :: _) =>
      let latest_article_url := s_url latest in
      match fetch_substack_article_text w latest_article_url with
      | Raised => Raised
      | Ok None => Ok failed_message
      | Ok (Some article_data) =>
          Ok (formatted_article article_data latest_article_url)
      end
  end.

End Service.

(* ================================================================== *)
(** ** Specification-level definitions *)

Module Spec.

(** What a pattern matches, read off its syntax: [Matches r w rest i g g']
    says that [r] can match the text [w] when [rest] follows it, [i]
    characters into the whole match, turning the groups [g] into [g']. *)
Fixpoint Matches (r : regex) (w rest : str) (i : nat) (g g' : caps) : Prop :=
  match r with
  | Lit w0 => w = w0 /\ g' = g
  | One cs => (exists x, w = [x] /\ cset_mem cs x = true) /\ g' = g
  | Rep cs min _ =>
      Forall (fun x => cset_mem cs x = true) w /\ min <= length w /\ g' = g
  | Cat r1 r2 =>
      exists w1 w2 g1,
        w = w1 ++ w2 /\ Matches r1 w1 (w2 ++ rest) i g g1 /\
        Matches r2 w2 rest (i + length w1) g1 g'
  | Alt r1 r2 => Matches r1 w rest i g g' \/ Matches r2 w rest i g g'
  | Group n r1 =>
      exists g1, Matches r1 w rest i g g1 /\
                 g' = (n, (i, i + length w)) :: g1
  | Ahead r1 =>
      w = [] /\ exists w1 rest1, rest = w1 ++ rest1 /\ Matches r1 w1 rest1 i g g'
  end.

(** The least number of characters a match of the pattern has. *)
Fixpoint min_len (r : regex) : nat :=
  match r with
  | Lit w => length w
  | One _ => 1
  | Rep _ min _ => min
  | Cat r1 r2 => min_len r1 + min_len r2
  | Alt r1 r2 => Nat.min (min_len r1) (min_len r2)
  | Group _ r1 => min_len r1
  | Ahead _ => 0
  end.

(** [s.find(w)]: where [w] first occurs in [s]. *)
Fixpoint find (w s : str) : option nat :=
  if startswith s w then Some 0
  else match s with
       | [] => None
       | _ :: s' => option_map S (find w s')
       end.

(** [w] occurs in [s]. *)
Definition occurs (w s : str) : Prop := exists l r, s = l ++ w ++ r.

(** A match reported [d] characters further on. *)
Definition shift (d : nat) (m : rmatch) : rmatch :=
  Match (d + m_start m) (m_text m) (m_len m) (m_caps m).

(** A whitespace character other than the plain space. *)
Definition odd_space (c : char) : bool := isspace c && negb (char_eqb c 32%N).

(** Lines 53-66 of [clean_html_text]: what is done to the text once the
    tags are dealt with. *)
Definition decode_and_trim (text : str) : str :=
  let text := sub (Lit (u "&nbsp;")) (u " ") text in
  let text := sub (Lit (u "&amp;")) (u "&") text in
  let text := sub (Lit (u "&lt;")) (u "<") text in
  let text := sub (Lit (u "&gt;")) (u ">") text in
  let text := sub (Lit (u "&quot;")) [DQ] text in
  let text := sub (Lit (u "&#39;")) [SQ] text in
  let text := sub (Rep space 1 true) (u " ") text in
  let text := sub (Rep newline 1 true) [LF] text in
  strip text.

(** The cleaner as the specification words it: every tag is removed from
    the text, and nothing is put in its place. *)
Definition clean_removing_tags (html_text : str) : str :=
  decode_and_trim (sub tag_pattern [] html_text).

(** A tag: an opening bracket, one or more characters other than the
    closing bracket, and the closing bracket. *)
Definition tag (t : str) : Prop :=
  exists w, t = u "<" ++ w ++ u ">" /\ w <> [] /\ ~ In (ch ">") w.

Definition starts_with_tag (s : str) : Prop :=
  exists t r, tag t /\ s = t ++ r.

(** [TagsBlanked s o]: [o] is [s] with every tag, read from the left,
    replaced by one space, and every other character kept. *)
Inductive TagsBlanked : str -> str -> Prop :=
| TB_end : TagsBlanked [] []
| TB_tag t s o :
    tag t -> TagsBlanked s o -> TagsBlanked (t ++ s) (u " " ++ o)
| TB_keep x s o :
    ~ starts_with_tag (x :: s) -> TagsBlanked s o ->
    TagsBlanked (x :: s) (x :: o).

(** The characters a slug is made of: no slash, whitespace or quote. *)
Definition slug_char (c : char) : Prop :=
  c <> ch "/" /\ isspace c = false /\ c <> DQ /\ c <> SQ.

(** The characters that may follow a post URL for it to be seen:
    whitespace, the double quote and the single quote. *)
Definition terminator (c : char) : bool :=
  isspace c || char_eqb c DQ || char_eqb c SQ.

(** The canonical shape of a post URL: the origin of the publication,
    [/p/] and a slug. *)
Definition post_url (url : str) : Prop :=
  exists slug,
    url = TRADE_COMPANION_URL ++ u "/p/" ++ slug /\
    slug <> [] /\ Forall slug_char slug.

(** The block of a heading of level [i] with inner content [h]
    (line 119). *)
Definition heading_block (i : nat) (h : str) : str :=
  repeat_char (ch "#") (i - 1) ++ u " " ++ clean_html_text h.

(** An element without attributes or content: [<name></name>]. *)
Definition empty_element (name : str) : str :=
  u "<" ++ name ++ u "></" ++ name ++ u ">".

(** The patterns the blocks are collected with. *)
Definition block_patterns : list regex :=
  map heading_pattern [2; 3; 4; 5; 6] ++ [p_pattern; li_pattern].

(** [settled a]: the end of [a] is a point that no cut-out region and no
    element of the scan spans, so that [a] is scanned the same way
    whatever follows it. The head of a fragment is such a point, and so
    is the end of a run of complete elements. *)
Definition settled (a : str) : Prop :=
  (forall t,
      remove_non_content (a ++ t) =
      remove_non_content a ++ remove_non_content t) /\
  (forall r t,
      In r block_patterns ->
      findall1 r (remove_non_content a ++ t) =
      findall1 r (remove_non_content a) ++ findall1 r t).

(** The pattern of an element with a captured inner content:
    [open_[^>]*?>(.*?)close_] under [re.DOTALL]. *)
Definition element_pattern (open_ close_ : str) : regex :=
  Lit open_ ;; Rep not_gt 0 false ;; Lit (u ">") ;;
  Group 1 (Rep Dot 0 false) ;; Lit close_.

(** The inner content of the first element of a kind, read off the text
    with [find]: what lies between the first closing bracket after the
    first [open_] and the first [close_] after that bracket. *)
Definition first_inner (open_ close_ : str) (text : str) : option str :=
  match find open_ text with
  | None => None
  | Some i =>
      let after := skipn (i + length open_) text in
      match find (u ">") after with
      | None => None
      | Some j =>
          let body := skipn (S j) after in
          match find close_ body with
          | None => None
          | Some k => Some (firstn k body)
          end
      end
  end.

(** The text that opens the value of a [datetime] attribute. *)
Definition datetime_eq : str := u "datetime=" ++ [DQ].





End Spec.
Import Spec.

(* ================================================================== *)
(** ** Definitions for the further properties *)

Module Props.

(** [d.get(key)] *)
Fixpoint dict_get (d : dict) (key : str) : option str :=
  match d with
  | [] => None
  | (k0, v0) :: d' => if str_eqb k0 key then Some v0 else dict_get d' key
  end.

(** The value of the last cookie of the file that has the given name. *)
Definition last_value (name : str) (cookies : list (str * str)) : option str :=
  option_map snd (List.find (fun c => str_eqb (fst c) name) (rev cookies)).

(** The entities that [clean_html_text] decodes (lines 53-58). *)
Definition entities : list str :=
  [u "&nbsp;"; u "&amp;"; u "&lt;"; u "&gt;"; u "&quot;"; u "&#39;"].

(** Line 61 alone: every run of whitespace becomes one space. *)
Definition collapse_spaces (text : str) : str :=
  sub (Rep space 1 true) (u " ") text.

(** [lf_runs n s]: with [n] newlines just before it, [s] never brings
    the count of newlines in a row to three. *)
Fixpoint lf_runs (n : nat) (s : str) : bool :=
  match s with
  | [] => true
  | c :: s' =>
      if char_eqb c LF then Nat.ltb n 2 && lf_runs (S n) s'
      else lf_runs 0 s'
  end.

(** The test of line 180. *)
Definition kept (url : str) : bool := negb (contains excluded_slug url).

(** An element written out: [<name attrs>content</name>]. *)
Definition element (name attrs content : str) : str :=
  u "<" ++ name ++ attrs ++ u ">" ++ content ++ u "</" ++ name ++ u ">".

(** <name[^>]*?>.*?</name> under re.DOTALL, the shape of the four
    patterns of lines 107-110. *)
Definition cut_pattern (name : str) : regex :=
  Lit (u "<" ++ name) ;; Rep not_gt 0 false ;; Lit (u ">") ;;
  Rep Dot 0 false ;; Lit (u "</" ++ name ++ u ">").

(** The text starts with a whitespace character. *)
Definition starts_space (s : str) : bool :=
  match s with
  | c :: _ => isspace c
  | [] => false
  end.

(** No whitespace character is followed by another one. *)
Fixpoint single_spaced (s : str) : bool :=
  match s with
  | [] => true
  | c :: s' => negb (isspace c && starts_space s') && single_spaced s'
  end.

(** Puts a character in front of the first piece. *)
Definition push_char (c : char) (pieces : list str) : list str :=
  match pieces with
  | p :: ps => (c :: p) :: ps
  | [] => [[c]]
  end.

(** [content.split(sep)] for the separator of line 136, two newlines:
    the pieces between the blank lines, read from the left. *)
Fixpoint split_blank_lines (s : str) : list str :=
  match s with
  | [] => [[]]
  | c :: s' =>
      match s' with
      | d :: s'' =>
          if char_eqb c LF && char_eqb d LF then [] :: split_blank_lines s''
          else push_char c (split_blank_lines s')
      | [] => push_char c (split_blank_lines s')
      end
  end.

End Props.
Import Props.

(* ================================================================== *)
(** ** Lemmas *)

(** *** Strings *)

Lemma char_eqb_eq (a b : char) : char_eqb a b = true <-> a = b.
Proof. apply N.eqb_eq. Qed.

Lemma char_eqb_refl (a : char) : char_eqb a a = true.
Proof. apply N.eqb_refl. Qed.

Lemma char_eqb_neq (a b : char) : char_eqb a b = false <-> a <> b.
Proof. apply N.eqb_neq. Qed.

Lemma str_eqb_eq (a b : str) : str_eqb a b = true <-> a = b.
Proof.
  revert b; induction a as [|x a IH]; intros [|y b]; simpl;
    try (split; [discriminate | discriminate]); try tauto.
  rewrite andb_true_iff, char_eqb_eq, IH.
  split; [intros [-> ->]; reflexivity | intros H; inversion H; auto].
Qed.

Lemma strip_prefix_app (w s : str) : strip_prefix w (w ++ s) = Some s.
Proof.
  induction w as [|x w IH]; simpl; [reflexivity|].
  now rewrite char_eqb_refl.
Qed.

Lemma strip_prefix_Some (w s s' : str) :
  strip_prefix w s = Some s' -> s = w ++ s'.
Proof.
  revert s; induction w as [|x w IH]; simpl; intros s H.
  - now inversion H.
  - destruct s as [|y s]; [discriminate|].
    destruct (char_eqb x y) eqn:E; [|discriminate].
    apply char_eqb_eq in E; subst y. f_equal; auto.
Qed.

Lemma startswith_true (s w : str) :
  startswith s w = true <-> exists r, s = w ++ r.
Proof.
  unfold startswith; split.
  - destruct (strip_prefix w s) eqn:E; [|discriminate].
    intros _; eexists; eapply strip_prefix_Some; eauto.
  - intros [r ->]; now rewrite strip_prefix_app.
Qed.

Lemma contains_occurs (w s : str) : contains w s = true <-> occurs w s.
Proof.
  unfold occurs; induction s as [|x s IH].
  - simpl; rewrite orb_false_r, startswith_true; split.
    + intros [r H]; exists [], r; exact H.
    + intros [l [r H]]. destruct l; [exists r; exact H | discriminate].
  - cbn [contains]; rewrite orb_true_iff, startswith_true, IH; split.
    + intros [[r H] | [l [r H]]].
      * exists [], r; exact H.
      * exists (x :: l), r; now rewrite H.
    + intros [[|y l] [r H]].
      * left; exists r; exact H.
      * right; exists l, r; now inversion H.
Qed.

(** *** The matcher is sound for [Matches] *)

Lemma rep_greedy_sound (A : Type) cs (k : str -> nat -> option A) s :
  forall min i x,
    rep_greedy cs min s i k = Some x ->
    exists w s',
      s = w ++ s' /\ Forall (fun c => cset_mem cs c = true) w /\
      min <= length w /\ k s' (i + length w) = Some x.
Proof.
  induction s as [|c s IH]; intros min i x H; simpl in H.
  - destruct min; [|discriminate].
    exists [], []; simpl; rewrite Nat.add_0_r; auto.
  - assert (Stop : match min with 0 => k (c :: s) i | S _ => None end = Some x ->
                   exists w s', c :: s = w ++ s' /\
                     Forall (fun c => cset_mem cs c = true) w /\
                     min <= length w /\ k s' (i + length w) = Some x).
    { destruct min; [|discriminate]. intros Hk.
      exists [], (c :: s); simpl; rewrite Nat.add_0_r; auto. }
    destruct (cset_mem cs c) eqn:Hc; [|auto].
    destruct (rep_greedy cs (pred min) s (S i) k) eqn:Hr; [|auto].
    inversion H; subst a.
    destruct (IH _ _ _ Hr) as (w & s' & -> & Hw & Hm & Hk).
    exists (c :: w), s'; simpl; repeat split; auto; try lia.
    now rewrite Nat.add_succ_r.
Qed.

Lemma rep_lazy_sound (A : Type) cs (k : str -> nat -> option A) s :
  forall min i x,
    rep_lazy cs min s i k = Some x ->
    exists w s',
      s = w ++ s' /\ Forall (fun c => cset_mem cs c = true) w /\
      min <= length w /\ k s' (i + length w) = Some x.
Proof.
  induction s as [|c s IH]; intros min i x H.
  - destruct min; simpl in H; [|discriminate].
    destruct (k [] i) eqn:Hk; [|discriminate].
    exists [], []; simpl; rewrite Nat.add_0_r; inversion H; subst; auto.
  - assert (More : (if cset_mem cs c then rep_lazy cs (pred min) s (S i) k
                    else None) = Some x ->
                   exists w s', c :: s = w ++ s' /\
                     Forall (fun c => cset_mem cs c = true) w /\
                     min <= length w /\ k s' (i + length w) = Some x).
    { destruct (cset_mem cs c) eqn:Hc; [|discriminate]. intros Hr.
      destruct (IH _ _ _ Hr) as (w & s' & -> & Hw & Hm & Hk).
      exists (c :: w), s'; simpl; repeat split; auto; try lia.
      now rewrite Nat.add_succ_r. }
    destruct min; simpl in H; [|auto].
    destruct (k (c :: s) i) eqn:Hk; [|auto].
    inversion H; subst a.
    exists [], (c :: s); simpl; rewrite Nat.add_0_r; auto.
Qed.

Lemma bt_sound r :
  forall (A : Type) s i g (k : str -> nat -> caps -> option A) x,
    bt r s i g k = Some x ->
    exists w s' g',
      s = w ++ s' /\ Matches r w s' i g g' /\
      k s' (i + length w) g' = Some x.
Proof.
  induction r as [w0 | cs | cs min greedy | r1 IH1 r2 IH2 | r1 IH1 r2 IH2
                 | n r1 IH1 | r1 IH1]; intros A s i g k x H; simpl in H.
  - destruct (strip_prefix w0 s) as [s'|] eqn:E; [|discriminate].
    apply strip_prefix_Some in E; subst s.
    exists w0, s', g; simpl; auto.
  - destruct s as [|c s]; [discriminate|].
    destruct (cset_mem cs c) eqn:Hc; [|discriminate].
    exists [c], s, g; simpl; rewrite Nat.add_1_r; repeat split; eauto.
  - destruct greedy.
    + apply rep_greedy_sound in H. destruct H as (w & s' & -> & Hw & Hm & Hk).
      exists w, s', g; simpl; auto.
    + apply rep_lazy_sound in H. destruct H as (w & s' & -> & Hw & Hm & Hk).
      exists w, s', g; simpl; auto.
  - apply IH1 in H. destruct H as (w1 & s1 & g1 & -> & M1 & H).
    apply IH2 in H. destruct H as (w2 & s2 & g2 & -> & M2 & H).
    exists (w1 ++ w2), s2, g2; rewrite <- app_assoc; repeat split; auto.
    + simpl; exists w1, w2, g1; auto.
    + now rewrite length_app, Nat.add_assoc.
  - destruct (bt r1 s i g k) eqn:E.
    + inversion H; subst a. apply IH1 in E.
      destruct E as (w & s' & g' & -> & M & Hk).
      exists w, s', g'; simpl; auto.
    + apply IH2 in H. destruct H as (w & s' & g' & -> & M & Hk).
      exists w, s', g'; simpl; auto.
  - apply IH1 in H. destruct H as (w & s' & g' & -> & M & Hk).
    exists w, s', ((n, (i, i + length w)) :: g'); simpl; eauto.
  - destruct (bt r1 s i g (fun _ _ g' => Some g')) as [g1|] eqn:E; [|discriminate].
    apply IH1 in E. destruct E as (w1 & s1 & g' & -> & M & Hk).
    inversion Hk; subst g1.
    exists [], (w1 ++ s1), g'; simpl; rewrite Nat.add_0_r; repeat split; eauto.
Qed.

Lemma Matches_min_len r :
  forall w rest i g g', Matches r w rest i g g' -> min_len r <= length w.
Proof.
  induction r as [w0 | cs | cs min greedy | r1 IHr1 r2 IHr2 | r1 IHr1 r2 IHr2
                 | n r1 IHr1 | r1 IHr1]; simpl; intros w rest i g g' M.
  - destruct M as [-> _]; auto.
  - destruct M as [[x [-> _]] _]; auto.
  - tauto.
  - destruct M as (w1 & w2 & g1 & -> & M1 & M2).
    apply IHr1 in M1; apply IHr2 in M2. rewrite length_app; lia.
  - destruct M as [M | M]; [apply IHr1 in M | apply IHr2 in M]; lia.
  - destruct M as (g1 & M & _); eauto.
  - lia.
Qed.

Lemma match_at_sound r s n g :
  match_at r s = Some (n, g) ->
  exists w s', s = w ++ s' /\ n = length w /\ Matches r w s' 0 [] g.
Proof.
  unfold match_at; intros H. apply bt_sound in H.
  destruct H as (w & s' & g' & -> & M & Hk). inversion Hk; subst.
  exists w, s'; auto.
Qed.

Lemma match_adv_sound r s n g :
  match_adv r s = Some (n, g) ->
  exists w s', s = w ++ s' /\ n = length w /\ Matches r w s' 0 [] g.
Proof.
  unfold match_adv; intros H. apply bt_sound in H.
  destruct H as (w & s' & g' & -> & M & Hk). simpl in Hk.
  destruct (length w) eqn:E; [discriminate|]. inversion Hk; subst.
  exists w, s'; auto.
Qed.

Lemma match_adv_pos r s n g : match_adv r s = Some (n, g) -> 0 < n.
Proof.
  unfold match_adv; intros H. apply bt_sound in H.
  destruct H as (w & s' & g' & -> & M & Hk). simpl in Hk.
  destruct (length w) eqn:E; [discriminate|]. inversion Hk; lia.
Qed.

(** *** The scanning loops *)

Lemma match_at_len r s n g :
  match_at r s = Some (n, g) -> min_len r <= n.
Proof.
  intros H. apply match_at_sound in H.
  destruct H as (w & s' & -> & -> & M). eapply Matches_min_len; eauto.
Qed.

Lemma attempt_nonempty r s :
  0 < min_len r ->
  attempt r s = match match_at r s with Some m => [m] | None => [] end.
Proof.
  intros Hr. unfold attempt.
  destruct (match_at r s) as [[n g]|] eqn:E; [|reflexivity].
  apply match_at_len in E. destruct n; [lia | reflexivity].
Qed.

Lemma attempt_sound r s n g :
  In (n, g) (attempt r s) ->
  exists w s', s = w ++ s' /\ n = length w /\ Matches r w s' 0 [] g.
Proof.
  unfold attempt.
  destruct (match_at r s) as [[n0 g0]|] eqn:E; [|intros []].
  destruct n0.
  - intros [H | H].
    + inversion H; subst. eapply match_at_sound; eauto.
    + destruct (match_adv r s) as [[n1 g1]|] eqn:E1; [|destruct H].
      destruct H as [H | []]. inversion H; subst.
      eapply match_adv_sound; eauto.
  - intros [H | []]. inversion H; subst. eapply match_at_sound; eauto.
Qed.

Lemma sub_from_nil r repl :
  0 < min_len r -> sub_from r repl [] 0 = [].
Proof.
  intros Hr; simpl. rewrite attempt_nonempty by assumption.
  destruct (match_at r []) as [[n g]|] eqn:E; [|reflexivity].
  pose proof (match_at_len _ _ E).
  apply match_at_sound in E. destruct E as (w & s' & E & -> & _).
  symmetry in E; apply app_eq_nil in E. destruct E as [-> _]. simpl in *; lia.
Qed.

Lemma sub_from_cons r repl x s :
  0 < min_len r ->
  sub_from r repl (x :: s) 0 =
  match match_at r (x :: s) with
  | Some (n, _) => repl ++ sub_from r repl s (pred n)
  | None => x :: sub_from r repl s 0
  end.
Proof.
  intros Hr. cbn [sub_from]. rewrite attempt_nonempty by assumption.
  destruct (match_at r (x :: s)) as [[n g]|] eqn:E; [|reflexivity].
  apply match_at_len in E. destruct n; [lia|].
  cbn. now rewrite app_nil_r.
Qed.

Lemma sub_from_skip r repl s k :
  sub_from r repl s (S k) =
  match s with [] => [] | _ :: s' => sub_from r repl s' k end.
Proof. destruct s; reflexivity. Qed.

Lemma finditer_from_nil r pos :
  0 < min_len r -> finditer_from r [] pos 0 = [].
Proof.
  intros Hr; simpl. rewrite attempt_nonempty by assumption.
  destruct (match_at r []) as [[n g]|] eqn:E; [|reflexivity].
  pose proof (match_at_len _ _ E).
  apply match_at_sound in E. destruct E as (w & s' & E & -> & _).
  symmetry in E; apply app_eq_nil in E. destruct E as [-> _]. simpl in *; lia.
Qed.

Lemma finditer_from_cons r x s pos :
  0 < min_len r ->
  finditer_from r (x :: s) pos 0 =
  match match_at r (x :: s) with
  | Some (n, g) => Match pos (x :: s) n g :: finditer_from r s (S pos) (pred n)
  | None => finditer_from r s (S pos) 0
  end.
Proof.
  intros Hr. cbn [finditer_from]. rewrite attempt_nonempty by assumption.
  destruct (match_at r (x :: s)) as [[n g]|] eqn:E; reflexivity.
Qed.

Lemma finditer_from_skip r s pos k :
  finditer_from r s pos (S k) =
  match s with [] => [] | _ :: s' => finditer_from r s' (S pos) k end.
Proof. destruct s; reflexivity. Qed.

(** Every match the loop reports is a match of the pattern at its place
    in the text. *)
Lemma finditer_from_sound r s :
  forall pos skip m,
    In m (finditer_from r s pos skip) ->
    exists pre w post,
      s = pre ++ w ++ post /\ skip <= length pre /\
      m_start m = pos + length pre /\ m_text m = w ++ post /\
      m_len m = length w /\ Matches r w post 0 [] (m_caps m).
Proof.
  induction s as [|x s IH]; intros pos skip m H.
  - destruct skip; simpl in H; [|destruct H].
    rewrite app_nil_r in H. apply in_map_iff in H.
    destruct H as ([n g] & <- & H). apply attempt_sound in H.
    destruct H as (w & s' & E & -> & M).
    exists [], w, s'; simpl; rewrite Nat.add_0_r; repeat split; auto.
  - destruct skip as [|k].
    + cbn [finditer_from] in H. apply in_app_or in H. destruct H as [H | H].
      * apply in_map_iff in H.
        destruct H as ([n g] & <- & H). apply attempt_sound in H.
        destruct H as (w & s' & E & -> & M).
        exists [], w, s'; simpl; rewrite Nat.add_0_r; repeat split; auto with arith.
      * apply IH in H. destruct H as (pre & w & post & -> & _ & Hs & Ht & Hl & M).
        exists (x :: pre), w, post; simpl; repeat split; auto with arith.
        rewrite Hs; lia.
    + simpl in H. apply IH in H.
      destruct H as (pre & w & post & -> & Hk & Hs & Ht & Hl & M).
      exists (x :: pre), w, post; simpl; repeat split; auto with arith.
      rewrite Hs; lia.
Qed.

Lemma group0_sound r s m :
  In m (finditer r s) ->
  exists pre post,
    s = pre ++ group0 m ++ post /\ m_start m = length pre /\
    m_text m = group0 m ++ post /\
    Matches r (group0 m) post 0 [] (m_caps m).
Proof.
  intros H. apply finditer_from_sound in H.
  destruct H as (pre & w & post & -> & _ & Hs & Ht & Hl & M).
  assert (E : group0 m = w).
  { unfold group0. rewrite Ht, Hl. now rewrite firstn_app, Nat.sub_diag,
      firstn_all, app_nil_r. }
  rewrite E. exists pre, post; auto.
Qed.

(** The position a scan starts from only shifts the reported starts. *)
Lemma finditer_from_shift r s :
  forall pos skip,
    finditer_from r s pos skip = map (shift pos) (finditer_from r s 0 skip).
Proof.
  induction s as [|x s IH]; intros pos skip.
  - destruct skip; simpl; [|reflexivity].
    rewrite !app_nil_r, map_map. apply map_ext.
    intros [n g]; unfold shift; simpl. now rewrite Nat.add_0_r.
  - destruct skip as [|k]; cbn [finditer_from].
    + rewrite map_app, map_map. f_equal.
      * apply map_ext. intros [n g]; unfold shift; simpl.
        now rewrite Nat.add_0_r.
      * rewrite (IH (S pos)), (IH 1), map_map. apply map_ext.
        intros m; unfold shift; simpl. f_equal; lia.
    + rewrite (IH (S pos)), (IH 1), map_map. apply map_ext.
      intros m; unfold shift; simpl. f_equal; lia.
Qed.

Lemma map_group_from r s n pos skip :
  map (fun m => group m n) (finditer_from r s pos skip) =
  map (fun m => group m n) (finditer_from r s 0 skip).
Proof.
  rewrite finditer_from_shift, map_map. apply map_ext. reflexivity.
Qed.

Lemma map_group0_from r s pos skip :
  map group0 (finditer_from r s pos skip) =
  map group0 (finditer_from r s 0 skip).
Proof.
  rewrite finditer_from_shift, map_map. apply map_ext. reflexivity.
Qed.

(** The matches come in the order of the text and do not overlap. *)
Lemma finditer_from_ordered r s :
  forall pos skip,
    Forall (fun m => pos + skip <= m_start m) (finditer_from r s pos skip) /\
    ForallOrdPairs (fun m1 m2 => m_start m1 + m_len m1 <= m_start m2)
                   (finditer_from r s pos skip).
Proof.
  induction s as [|x s IH]; intros pos skip.
  - destruct skip; simpl; [|split; constructor].
    rewrite app_nil_r. unfold attempt.
    destruct (match_at r []) as [[[|n] g]|] eqn:E; simpl.
    + destruct (match_adv r []) as [[n1 g1]|] eqn:E1; simpl.
      * split; repeat constructor; simpl; lia.
      * split; repeat constructor; simpl; lia.
    + split; repeat constructor; simpl; lia.
    + split; constructor.
  - destruct skip as [|k]; cbn [finditer_from].
    + destruct (IH (S pos) (pred (consumed (attempt r (x :: s))))) as [F O].
      unfold attempt, consumed in *.
      destruct (match_at r (x :: s)) as [[[|n] g]|] eqn:E; simpl in *.
      * destruct (match_adv r (x :: s)) as [[n1 g1]|] eqn:E1; simpl in *.
        -- split.
           ++ repeat constructor; simpl; try lia.
              eapply Forall_impl; [|exact F]. simpl; intros; lia.
           ++ constructor.
              { constructor; simpl; [lia|].
                eapply Forall_impl; [|exact F]. simpl; intros; lia. }
              constructor; [|exact O].
              apply match_adv_pos in E1.
              eapply Forall_impl; [|exact F]. simpl; intros; lia.
        -- split.
           ++ constructor; simpl; [lia|].
              eapply Forall_impl; [|exact F]. simpl; intros; lia.
           ++ constructor; [|exact O].
              eapply Forall_impl; [|exact F]. simpl; intros; lia.
      * split.
        -- constructor; simpl; [lia|].
           eapply Forall_impl; [|exact F]. simpl; intros; lia.
        -- constructor; [|exact O].
           eapply Forall_impl; [|exact F]. simpl; intros; lia.
      * split; [|exact O].
        eapply Forall_impl; [|exact F]. simpl; intros; lia.
    + destruct (IH (S pos) k) as [F O]. split; [|exact O].
      eapply Forall_impl; [|exact F]. simpl; intros; lia.
Qed.

(** *** [search] *)


Lemma search_from_None r s :
  forall pos,
    search_from r s pos = None <->
    (forall pre t, s = pre ++ t -> match_at r t = None).
Proof.
  induction s as [|x s IH]; intros pos; simpl.
  - destruct (match_at r []) as [[n g]|] eqn:E; split; try discriminate.
    + intros H. rewrite (H [] []) in E by reflexivity. discriminate.
    + intros _ pre t Hp. symmetry in Hp. apply app_eq_nil in Hp.
      destruct Hp as [_ ->]. exact E.
    + reflexivity.
  - destruct (match_at r (x :: s)) as [[n g]|] eqn:E; split; try discriminate.
    + intros H. rewrite (H [] (x :: s)) in E by reflexivity. discriminate.
    + intros H pre t Hp. destruct pre as [|y pre]; simpl in Hp.
      * now subst t.
      * inversion Hp; subst. eapply IH; eauto.
    + intros H. apply (IH (S pos)). intros pre t ->.
      apply (H (x :: pre)). reflexivity.
Qed.

(** A scan for a match goes past a prefix where none starts. *)
Lemma search_from_skip r pre s :
  forall pos,
    (forall p1 p2, pre = p1 ++ p2 -> p2 <> [] -> match_at r (p2 ++ s) = None) ->
    search_from r (pre ++ s) pos = search_from r s (pos + length pre).
Proof.
  induction pre as [|x pre IH]; intros pos H; simpl.
  - now rewrite Nat.add_0_r.
  - assert (E : match_at r (x :: pre ++ s) = None)
      by (apply (H [] (x :: pre)); [reflexivity | discriminate]).
    rewrite E, IH, Nat.add_succ_r; [reflexivity|].
    intros p1 p2 -> Hne. apply (H (x :: p1)); auto.
Qed.

(** *** Whitespace *)

Lemma rep_greedy_total (A : Type) cs (k : str -> nat -> option A) s :
  forall i, (forall s' j, k s' j <> None) -> rep_greedy cs 0 s i k <> None.
Proof.
  induction s as [|c s IH]; intros i Hk; simpl; [apply Hk|].
  destruct (cset_mem cs c); [|apply Hk].
  destruct (rep_greedy cs 0 s (S i) k) eqn:E; [discriminate|].
  exfalso; eapply IH; eauto.
Qed.

(** [\s+] and [\n+] match wherever the text starts with a character of
    their class. *)
Lemma match_at_plus_None cs x s :
  match_at (Rep cs 1 true) (x :: s) = None -> cset_mem cs x = false.
Proof.
  unfold match_at; simpl. destruct (cset_mem cs x); [|reflexivity].
  intros H. exfalso. revert H. destruct (rep_greedy cs 0 s 1 _) eqn:E.
  - discriminate.
  - exfalso; revert E; apply rep_greedy_total; discriminate.
Qed.

Lemma match_at_plus_miss cs x s :
  cset_mem cs x = false -> match_at (Rep cs 1 true) (x :: s) = None.
Proof. unfold match_at; simpl. now intros ->. Qed.

Lemma sub_spaces_plain s :
  forall skip,
    Forall (fun c => odd_space c = false)
           (sub_from (Rep space 1 true) (u " ") s skip).
Proof.
  induction s as [|x s IH]; intros [|k].
  - rewrite sub_from_nil by (simpl; lia). constructor.
  - constructor.
  - rewrite sub_from_cons by (simpl; lia).
    destruct (match_at (Rep space 1 true) (x :: s)) as [[n g]|] eqn:E.
    + constructor; [reflexivity | apply IH].
    + constructor; [|apply IH].
      apply match_at_plus_None in E. simpl in E. rewrite orb_false_r in E.
      unfold odd_space. now rewrite E.
  - rewrite sub_from_skip. apply IH.
Qed.

Lemma sub_newlines_id s :
  Forall (fun c => odd_space c = false) s ->
  sub (Rep newline 1 true) [LF] s = s.
Proof.
  unfold sub. induction 1 as [|x s Hx Hs IH].
  - apply sub_from_nil; simpl; lia.
  - rewrite sub_from_cons by (simpl; lia).
    rewrite match_at_plus_miss; [now rewrite IH|].
    simpl. rewrite orb_false_r. destruct (char_eqb x LF) eqn:E; [|reflexivity].
    apply char_eqb_eq in E; subst x. discriminate.
Qed.

Lemma lstrip_suffix s : exists pre, s = pre ++ lstrip s.
Proof.
  induction s as [|c s [pre IH]]; simpl.
  - now exists [].
  - destruct (isspace c); [|now exists []].
    exists (c :: pre); simpl; now f_equal.
Qed.

Lemma lstrip_head s : isspace (hd 0%N (lstrip s)) = false.
Proof.
  induction s as [|c s IH]; simpl; [reflexivity|].
  destruct (isspace c) eqn:E; [exact IH | exact E].
Qed.

Lemma lstrip_fixed s : isspace (hd 0%N s) = false -> lstrip s = s.
Proof. destruct s as [|c s]; simpl; [reflexivity | now intros ->]. Qed.

Lemma rstrip_prefix s : exists suf, s = rstrip s ++ suf.
Proof.
  unfold rstrip. destruct (lstrip_suffix (rev s)) as [pre H].
  exists (rev pre). rewrite <- rev_app_distr, <- H. now rewrite rev_involutive.
Qed.

Lemma rstrip_last s : isspace (last (rstrip s) 0%N) = false.
Proof.
  unfold rstrip. pose proof (lstrip_head (rev s)) as H.
  destruct (lstrip (rev s)) as [|c t]; [reflexivity|].
  simpl in *. now rewrite last_last.
Qed.

Lemma rstrip_head s :
  isspace (hd 0%N s) = false -> isspace (hd 0%N (rstrip s)) = false.
Proof.
  intros H. destruct (rstrip_prefix s) as [suf E].
  destruct (rstrip s) as [|c t]; [reflexivity|].
  rewrite E in H. exact H.
Qed.

Lemma strip_sublist s : exists pre suf, s = pre ++ strip s ++ suf.
Proof.
  unfold strip. destruct (lstrip_suffix s) as [pre H].
  destruct (rstrip_prefix (lstrip s)) as [suf H'].
  exists pre, suf. now rewrite <- H', <- H.
Qed.

Lemma strip_Forall (P : char -> Prop) s : Forall P s -> Forall P (strip s).
Proof.
  intros H. destruct (strip_sublist s) as (pre & suf & E).
  rewrite E in H. apply Forall_app in H. destruct H as [_ H].
  apply Forall_app in H. tauto.
Qed.

(** The result of [clean_html_text] has no whitespace but plain spaces,
    and none at either end. *)
Lemma clean_spaces html_text :
  Forall (fun c => odd_space c = false) (clean_html_text html_text).
Proof.
  unfold clean_html_text. apply strip_Forall.
  rewrite sub_newlines_id; apply sub_spaces_plain.
Qed.

Lemma clean_head html_text :
  isspace (hd 0%N (clean_html_text html_text)) = false.
Proof. unfold clean_html_text, strip. apply rstrip_head, lstrip_head. Qed.

Lemma clean_last html_text :
  isspace (last (clean_html_text html_text) 0%N) = false.
Proof. unfold clean_html_text, strip. apply rstrip_last. Qed.

(** C6. [clean_html_text] of the empty string is the empty string, and
    of [<b>hi</b>  there] followed by two newlines it is [hi there];
    for every input the result contains no newline character and neither
    starts nor ends with a whitespace character. *)
Theorem clean_html_text_single_line_trimmed :
  clean_html_text [] = [] /\
  clean_html_text (u "<b>hi</b>  there" ++ [LF; LF]) = u "hi there" /\
  forall html_text,
    ~ In LF (clean_html_text html_text) /\
    isspace (hd 0%N (clean_html_text html_text)) = false /\
    isspace (last (clean_html_text html_text) 0%N) = false.
Proof.
  split; [reflexivity|]. split; [vm_compute; reflexivity|].
  intros html_text. split; [|split].
  - intros H. pose proof (clean_spaces html_text) as F.
    rewrite Forall_forall in F. apply F in H. discriminate.
  - apply clean_head.
  - apply clean_last.
Qed.

(** *** Reasoning about [sub] match by match *)

Lemma sub_from_skip_app r repl w s :
  sub_from r repl (w ++ s) (length w) = sub_from r repl s 0.
Proof. induction w as [|x w IH]; simpl; auto. Qed.

Lemma finditer_from_skip_app r w s pos :
  finditer_from r (w ++ s) pos (length w) =
  finditer_from r s (pos + length w) 0.
Proof.
  revert pos; induction w as [|x w IH]; intros pos; simpl.
  - now rewrite Nat.add_0_r.
  - now rewrite IH, Nat.add_succ_r.
Qed.

(** With a pattern that cannot match the empty string, [sub] either
    keeps the first character and goes on, or replaces a match at the
    head of the text and goes on after it. *)
Lemma sub_step r repl s :
  0 < min_len r ->
  match match_at r s with
  | None =>
      match s with
      | [] => sub r repl s = []
      | x :: s' => sub r repl s = x :: sub r repl s'
      end
  | Some (n, g) =>
      exists w s', s = w ++ s' /\ w <> [] /\ n = length w /\
                   Matches r w s' 0 [] g /\
                   sub r repl s = repl ++ sub r repl s'
  end.
Proof.
  intros Hr. unfold sub.
  destruct (match_at r s) as [[n g]|] eqn:E.
  - pose proof (match_at_len _ _ E) as Hn.
    pose proof E as E'. apply match_at_sound in E'.
    destruct E' as (w & s' & -> & -> & M).
    exists w, s'. destruct w as [|x w]; [simpl in Hn; lia|].
    repeat split; auto; [discriminate|].
    simpl app. rewrite sub_from_cons by assumption.
    simpl app in E. rewrite E. simpl. now rewrite sub_from_skip_app.
  - destruct s as [|x s]; [now apply sub_from_nil|].
    rewrite sub_from_cons by assumption. now rewrite E.
Qed.

Lemma sub_ind (P : str -> str -> Prop) r repl :
  0 < min_len r ->
  P [] [] ->
  (forall x s o, match_at r (x :: s) = None -> P s o -> P (x :: s) (x :: o)) ->
  (forall w s g o,
      w <> [] -> Matches r w s 0 [] g ->
      match_at r (w ++ s) = Some (length w, g) ->
      P s o -> P (w ++ s) (repl ++ o)) ->
  forall s, P s (sub r repl s).
Proof.
  intros Hr Hnil Hkeep Hmatch s.
  remember (length s) as n eqn:Hn. revert s Hn.
  induction n as [n IH] using lt_wf_ind. intros s Hn.
  pose proof (@sub_step r repl s Hr) as H.
  destruct (match_at r s) as [[m g]|] eqn:E.
  - destruct H as (w & s' & -> & Hw & -> & M & ->).
    apply Hmatch with (g := g); auto.
    apply (IH (length s')); [|reflexivity].
    rewrite Hn, length_app. destruct w; [congruence | simpl; lia].
  - destruct s as [|x s].
    + now rewrite H.
    + rewrite H. apply Hkeep; auto.
      apply (IH (length s)); [|reflexivity]. rewrite Hn; simpl; lia.
Qed.

(** *** Tags *)

Lemma rep_greedy_run (A : Type) cs (k : str -> nat -> option A) w :
  forall min s i x,
    Forall (fun c => cset_mem cs c = true) w ->
    min <= length w ->
    hd_error s = None \/ (exists c, hd_error s = Some c /\ cset_mem cs c = false) ->
    k s (i + length w) = Some x ->
    rep_greedy cs min (w ++ s) i k = Some x.
Proof.
  induction w as [|c w IH]; intros min s i x Hw Hmin Hs Hk.
  - simpl in *. rewrite Nat.add_0_r in Hk.
    assert (min = 0) by lia; subst min.
    destruct s as [|c s]; simpl; [exact Hk|].
    destruct Hs as [Hs | (c' & Hs & Hc)]; [discriminate|].
    inversion Hs; subst c'. now rewrite Hc.
  - inversion Hw as [|? ? Hc Hw']; subst. simpl.
    rewrite Hc. rewrite (IH (pred min) s (S i) x); auto.
    + simpl in Hmin; lia.
    + simpl in Hk. now rewrite Nat.add_succ_r in Hk.
Qed.

Lemma not_gt_mem c : cset_mem not_gt c = true <-> c <> ch ">".
Proof.
  simpl. rewrite orb_false_r, negb_true_iff. apply char_eqb_neq.
Qed.

Lemma Forall_not_gt w :
  Forall (fun c => cset_mem not_gt c = true) w <-> ~ In (ch ">") w.
Proof.
  rewrite Forall_forall. split.
  - intros H Hin. apply H in Hin. apply not_gt_mem in Hin. congruence.
  - intros H c Hin. apply not_gt_mem. intros ->. contradiction.
Qed.

Lemma tag_pattern_Matches w rest g :
  Matches tag_pattern w rest 0 [] g -> tag w.
Proof.
  simpl. intros (w1 & w2 & g1 & -> & [-> ->] & w3 & w4 & g2 & -> & (F & L & ->) & [-> ->]).
  exists w3. repeat split.
  - destruct w3; [simpl in L; lia | discriminate].
  - now apply Forall_not_gt.
Qed.

Lemma bt_Cat (A : Type) r1 r2 s i g (k : str -> nat -> caps -> option A) :
  bt (r1 ;; r2) s i g k = bt r1 s i g (fun s' j g' => bt r2 s' j g' k).
Proof. reflexivity. Qed.

Lemma bt_Lit_app (A : Type) w s i g (k : str -> nat -> caps -> option A) :
  bt (Lit w) (w ++ s) i g k = k s (i + length w) g.
Proof. simpl. now rewrite strip_prefix_app. Qed.

Lemma bt_Lit_miss (A : Type) w s i g (k : str -> nat -> caps -> option A) :
  strip_prefix w s = None -> bt (Lit w) s i g k = None.
Proof. simpl. now intros ->. Qed.

Lemma bt_Group (A : Type) n r s i g (k : str -> nat -> caps -> option A) :
  bt (Group n r) s i g k =
  bt r s i g (fun s' j g' => k s' j ((n, (i, j)) :: g')).
Proof. reflexivity. Qed.

Lemma tag_match t r :
  tag t -> exists g, match_at tag_pattern (t ++ r) = Some (length t, g).
Proof.
  intros (w & -> & Hw & Hgt). exists [].
  unfold match_at, tag_pattern.
  rewrite <- !app_assoc, bt_Cat, bt_Lit_app, bt_Cat. cbn [bt].
  erewrite rep_greedy_run; [reflexivity | | | | ].
  - now apply Forall_not_gt.
  - destruct w; [congruence | simpl; lia].
  - right. exists (ch ">"). split; reflexivity.
  - change (u ">" ++ r) with ((u ">") ++ r).
    rewrite strip_prefix_app. rewrite !length_app. simpl. reflexivity.
Qed.

Lemma tag_match_None s :
  match_at tag_pattern s = None -> ~ starts_with_tag s.
Proof.
  intros E (t & r & Ht & ->).
  destruct (tag_match r Ht) as [g H]. congruence.
Qed.

(** The first pass of [clean_html_text] puts one space for every tag. *)
Lemma sub_tags_blanked s : TagsBlanked s (sub tag_pattern (u " ") s).
Proof.
  apply sub_ind.
  - simpl; lia.
  - constructor.
  - intros x s0 o E H. constructor; auto. now apply tag_match_None.
  - intros w s0 g o Hw M E H. constructor; auto.
    eapply tag_pattern_Matches; eauto.
Qed.

Lemma first_occurrence (c : char) l :
  In c l -> exists a b, l = a ++ c :: b /\ ~ In c a.
Proof.
  induction l as [|x l IH]; [intros []|]. intros H.
  destruct (N.eq_dec x c) as [-> | Hne].
  - exists [], l; auto.
  - destruct H as [H | H]; [contradiction|].
    destruct (IH H) as (a & b & -> & Ha).
    exists (x :: a), b; split; [reflexivity|].
    intros [E | E]; auto.
Qed.

Lemma tag_head t : tag t -> exists t', t = ch "<" :: t'.
Proof. intros (w & -> & _). eexists; reflexivity. Qed.

Lemma blanked_gt s o : TagsBlanked s o -> In (ch ">") o -> In (ch ">") s.
Proof.
  induction 1 as [|t s o Ht H IH|x s o Hx H IH]; auto.
  - intros [E | E]; [discriminate|]. apply in_or_app; auto.
  - intros [E | E]; [left; auto | right; auto].
Qed.

Lemma blanked_gt_head s o s' :
  TagsBlanked s o -> s = ch ">" :: s' -> exists o', o = ch ">" :: o'.
Proof.
  intros H E. destruct H as [|t s o Ht H|x s o Hx H].
  - discriminate.
  - destruct (tag_head Ht) as [t' ->]. discriminate.
  - inversion E; subst. eexists; reflexivity.
Qed.

Lemma blanked_no_new_tag x s o :
  ~ starts_with_tag (x :: s) -> TagsBlanked s o -> ~ starts_with_tag (x :: o).
Proof.
  intros Hx H (t & r & (w & -> & Hw & Hgt) & E).
  simpl in E. inversion E as [[Ex Eo]]. clear E.
  rewrite <- app_assoc in Eo.
  assert (Hin : In (ch ">") s).
  { apply (blanked_gt H). rewrite Eo. apply in_or_app; right. simpl; left; reflexivity. }
  destruct (first_occurrence _ _ Hin) as (a & b & Es & Ha).
  apply Hx. exists (u "<" ++ a ++ u ">"), b. split.
  - exists a. repeat split; auto.
    intros ->. simpl in Es.
    destruct (blanked_gt_head H Es) as [o' Eo'].
    rewrite Eo' in Eo. destruct w; [congruence|].
    inversion Eo; subst. apply Hgt; left; reflexivity.
  - rewrite Es, Ex, <- !app_assoc. reflexivity.
Qed.

Lemma blanked_tag_free s o :
  TagsBlanked s o -> forall pre t, o = pre ++ t -> ~ starts_with_tag t.
Proof.
  induction 1 as [|t0 s o Ht H IH|x s o Hx H IH]; intros pre t E.
  - symmetry in E. apply app_eq_nil in E. destruct E as [_ ->].
    intros (t & r & Ht & E). destruct (tag_head Ht) as [t' ->]. discriminate.
  - destruct pre as [|y pre]; simpl in E.
    + subst t. intros (t & r & Ht' & E).
      destruct (tag_head Ht') as [t' ->]. discriminate.
    + inversion E; subst. eapply IH; eauto.
  - destruct pre as [|y pre]; simpl in E.
    + subst t. eapply blanked_no_new_tag; eauto.
    + inversion E; subst. eapply IH; eauto.
Qed.

(** The claim as worded fails on its own example: a space is left where
    the tag was. *)
Lemma clean_html_text_leaves_space_for_tag :
  clean_html_text (u "a<b>c") = u "a c" /\
  clean_removing_tags (u "a<b>c") = u "ac" /\
  clean_html_text (u "a<b>c") <> clean_removing_tags (u "a<b>c").
Proof.
  split; [vm_compute; reflexivity|].
  split; [vm_compute; reflexivity|].
  vm_compute; discriminate.
Qed.

(** C5 (amended). For every input string, [clean_html_text] first turns
    every tag (an opening angle bracket, one or more characters other than
    the closing bracket, and the closing bracket) into one space and keeps
    every other character, so that no tag is left in the text that the
    later steps see; an empty pair of brackets is not a tag and stays.
    Cleaning [a<b>c] gives [a c]. *)
Theorem clean_html_text_blanks_tags :
  (forall html_text,
      let text := sub tag_pattern (u " ") html_text in
      clean_html_text html_text = decode_and_trim text /\
      TagsBlanked html_text text /\
      forall t, tag t -> ~ occurs t text) /\
  clean_html_text (u "a<b>c") = u "a c" /\
  clean_html_text (u "a<>c") = u "a<>c".
Proof.
  split; [|split; vm_compute; reflexivity].
  intros html_text text. split; [reflexivity|].
  split; [apply sub_tags_blanked|].
  intros t Ht (l & r & E).
  apply (@blanked_tag_free _ _ (sub_tags_blanked html_text) l (t ++ r) E).
  exists t, r; auto.
Qed.

(** *** Loops that append *)

Lemma fold_left_append_if (A : Type) (f : A -> bool) l :
  forall acc,
    fold_left (fun acc x => if f x then acc ++ [x] else acc) l acc =
    acc ++ filter f l.
Proof.
  induction l as [|x l IH]; intros acc; simpl.
  - now rewrite app_nil_r.
  - rewrite IH. destruct (f x); [|reflexivity].
    now rewrite <- app_assoc.
Qed.

Lemma fold_left_append_map (A B : Type) (f : A -> B) l :
  forall acc,
    fold_left (fun acc x => acc ++ [f x]) l acc = acc ++ map f l.
Proof.
  induction l as [|x l IH]; intros acc; simpl.
  - now rewrite app_nil_r.
  - rewrite IH. now rewrite <- app_assoc.
Qed.

(** *** The index scanner *)

Lemma url_pattern_Matches w rest g :
  Matches url_pattern w rest 0 [] g ->
  post_url w /\ exists c rest', rest = c :: rest' /\ terminator c = true.
Proof.
  simpl.
  intros (w1 & w2 & g1 & -> & [-> ->] & w3 & w4 & g2 & -> & (F & L & ->) &
          -> & w5 & rest' & E & (c & -> & Hc) & ->).
  rewrite app_nil_r in *. split.
  - exists w3. split; [reflexivity|]. split.
    + destruct w3; [simpl in L; lia | discriminate].
    + eapply Forall_impl; [|exact F]. intros a Ha. simpl in Ha.
      rewrite negb_true_iff, orb_false_r in Ha.
      apply orb_false_iff in Ha. destruct Ha as [H1 Ha].
      apply orb_false_iff in Ha. destruct Ha as [H2 Ha].
      apply orb_false_iff in Ha. destruct Ha as [H3 H4].
      repeat split; auto; now apply char_eqb_neq.
  - exists c, rest'. split; [exact E|].
    simpl in Hc. rewrite orb_false_r in Hc. unfold terminator.
    now rewrite <- orb_assoc.
Qed.

Lemma fold_left_append_if2 (A : Type) (f e : A -> bool) l :
  forall acc,
    fold_left (fun acc x => if f x then if e x then acc ++ [x] else acc
                            else acc) l acc =
    acc ++ filter e (filter f l).
Proof.
  induction l as [|x l IH]; intros acc; simpl.
  - now rewrite app_nil_r.
  - destruct (f x); simpl; [|apply IH].
    destruct (e x); simpl; rewrite IH; [|reflexivity].
    now rewrite <- app_assoc.
Qed.

Lemma article_urls_filter text :
  article_urls text =
  filter (fun url => negb (contains excluded_slug url))
         (filter (fun url =>
                    startswith url (rstrip_chars (u "/") TRADE_COMPANION_URL)
                    && contains (u "/p/") url)
                 (findall0 url_pattern text)).
Proof. unfold article_urls. now rewrite fold_left_append_if2. Qed.

Lemma findall0_post_url text url :
  In url (findall0 url_pattern text) -> post_url url.
Proof.
  unfold findall0. intros H. apply in_map_iff in H.
  destruct H as (m & <- & H). apply group0_sound in H.
  destruct H as (pre & post & _ & _ & _ & M).
  now apply url_pattern_Matches in M.
Qed.

(** The guard of line 179 holds of every match of the pattern. *)
Lemma post_url_guard url :
  post_url url ->
  startswith url (rstrip_chars (u "/") TRADE_COMPANION_URL)
  && contains (u "/p/") url = true.
Proof.
  intros (slug & -> & _). apply andb_true_iff. split.
  - apply startswith_true. exists (u "/p/" ++ slug). reflexivity.
  - apply contains_occurs. exists TRADE_COMPANION_URL, slug. reflexivity.
Qed.

Lemma article_urls_In text url :
  In url (article_urls text) <->
  In url (findall0 url_pattern text) /\ ~ occurs excluded_slug url.
Proof.
  rewrite article_urls_filter, !filter_In, negb_true_iff.
  rewrite <- contains_occurs. split.
  - intros [[H _] E]. split; [exact H | congruence].
  - intros [H E]. repeat split; auto.
    + apply post_url_guard. eapply findall0_post_url; eauto.
    + destruct (contains excluded_slug url); congruence.
Qed.

(** *** Removing duplicates *)

Lemma existsb_str_eqb x l : existsb (str_eqb x) l = true <-> In x l.
Proof.
  rewrite existsb_exists. split.
  - intros (y & Hy & E). apply str_eqb_eq in E. now subst.
  - intros H. exists x. split; [exact H | now apply str_eqb_eq].
Qed.

Lemma unique_urls_snoc l x :
  unique_urls (l ++ [x]) =
  if existsb (str_eqb x) (unique_urls l) then unique_urls l
  else unique_urls l ++ [x].
Proof.
  unfold unique_urls. rewrite fold_left_app. simpl.
  now destruct (existsb _ _).
Qed.

Lemma unique_urls_In l x : In x (unique_urls l) <-> In x l.
Proof.
  induction l as [|y l IH] using rev_ind; [reflexivity|].
  rewrite unique_urls_snoc, in_app_iff.
  destruct (existsb (str_eqb y) (unique_urls l)) eqn:E.
  - apply existsb_str_eqb in E. rewrite IH. split; [tauto|].
    intros [H | [<- | []]]; [exact H | now apply IH].
  - rewrite in_app_iff, IH. reflexivity.
Qed.

Lemma unique_urls_NoDup l : NoDup (unique_urls l).
Proof.
  induction l as [|y l IH] using rev_ind; [constructor|].
  rewrite unique_urls_snoc.
  destruct (existsb (str_eqb y) (unique_urls l)) eqn:E; [exact IH|].
  apply NoDup_app; auto.
  - repeat constructor. intros [].
  - intros x Hx [<- | []].
    apply existsb_str_eqb in Hx. congruence.
Qed.

Lemma first_occurrence_str (x : str) l :
  In x l -> exists a b, l = a ++ x :: b /\ ~ In x a.
Proof.
  induction l as [|y l IH]; [intros []|]. intros H.
  destruct (list_eq_dec N.eq_dec y x) as [-> | Hne].
  - exists [], l; auto.
  - destruct H as [H | H]; [contradiction|].
    destruct (IH H) as (a & b & -> & Ha).
    exists (y :: a), b; split; [reflexivity|].
    intros [E | E]; auto.
Qed.

(** In the result a URL comes before another when its first occurrence
    in the input does. *)
Lemma unique_urls_order l :
  forall l1 a l2 b l3,
    unique_urls l = l1 ++ a :: l2 ++ b :: l3 ->
    exists m1 m2, l = m1 ++ a :: m2 /\ ~ In a m1 /\ ~ In b m1 /\ In b m2.
Proof.
  induction l as [|y l IH] using rev_ind; intros l1 a l2 b l3 E.
  - destruct l1; discriminate.
  - rewrite unique_urls_snoc in E.
    destruct (existsb (str_eqb y) (unique_urls l)) eqn:Ey.
    + destruct (IH _ _ _ _ _ E) as (m1 & m2 & -> & Ha & Hb & Hin).
      exists m1, (m2 ++ [y]). rewrite <- app_assoc. repeat split; auto.
      apply in_or_app; auto.
    + assert (Hy : ~ In y l).
      { intros H. apply unique_urls_In in H. apply existsb_str_eqb in H.
        congruence. }
      destruct l3 as [|z l3] using rev_ind.
      * (* [b] is the new URL *)
        assert (E' : unique_urls l ++ [y] = (l1 ++ a :: l2) ++ [b])
          by (rewrite E, <- app_assoc; reflexivity).
        apply app_inj_tail in E'. destruct E' as [E' <-].
        assert (Ha : In a l).
        { apply unique_urls_In. rewrite E'. apply in_or_app. right; left; auto. }
        destruct (first_occurrence_str _ _ Ha) as (m1 & m2 & -> & Hm).
        exists m1, (m2 ++ [y]). rewrite <- app_assoc. repeat split; auto.
        -- intros H. apply Hy. apply in_or_app; auto.
        -- apply in_or_app; right; left; auto.
      * clear IHl3.
        assert (E' : unique_urls l ++ [y] = (l1 ++ a :: l2 ++ b :: l3) ++ [z]).
        { rewrite E, <- !app_assoc. simpl. now rewrite <- !app_assoc. }
        apply app_inj_tail in E'. destruct E' as [E' _].
        destruct (IH _ _ _ _ _ E') as (m1 & m2 & -> & Ha & Hb & Hin).
        exists m1, (m2 ++ [y]). rewrite <- app_assoc. repeat split; auto.
        apply in_or_app; auto.
Qed.

Lemma ForallOrdPairs_after (A : Type) (R : A -> A -> Prop) l1 x l2 :
  ForallOrdPairs R (l1 ++ x :: l2) -> Forall (R x) l2.
Proof.
  induction l1 as [|y l1 IH]; simpl; intros H; inversion H; subst; auto.
Qed.

Lemma finditer_url_len text m :
  In m (finditer url_pattern text) -> 0 < m_len m.
Proof.
  intros H. apply finditer_from_sound in H.
  destruct H as (pre & w & post & _ & _ & _ & _ & -> & M).
  apply Matches_min_len in M. simpl in M. lia.
Qed.

(** The first match of [a] in the text lies before every match of [b]
    when [b] is not among the matches that precede it. *)
Lemma first_match_before text a b m1 m2 :
  findall0 url_pattern text = m1 ++ a :: m2 ->
  ~ In b m1 -> a <> b ->
  exists ma,
    In ma (finditer url_pattern text) /\ group0 ma = a /\
    forall mb, In mb (finditer url_pattern text) -> group0 mb = b ->
               m_start ma < m_start mb.
Proof.
  unfold findall0. intros E Hb Hab.
  apply map_eq_app in E. destruct E as (L1 & L' & EL & E1 & E').
  apply map_eq_cons in E'. destruct E' as (ma & L2 & -> & Ea & E2).
  exists ma. split; [rewrite EL; apply in_or_app; right; left; reflexivity|].
  split; [exact Ea|]. intros mb Hin Eb.
  rewrite EL in Hin. apply in_app_or in Hin. destruct Hin as [Hin | [<- | Hin]].
  - exfalso. apply Hb. rewrite <- E1, <- Eb. now apply in_map.
  - congruence.
  - assert (Hlen : 0 < m_len ma).
    { apply (@finditer_url_len text). rewrite EL.
      apply in_or_app; right; left; reflexivity. }
    pose proof (finditer_from_ordered url_pattern text 0 0) as [_ O].
    fold (finditer url_pattern text) in O. rewrite EL in O.
    apply ForallOrdPairs_after in O. rewrite Forall_forall in O.
    specialize (O mb Hin). lia.
Qed.

Lemma filter_twice (A : Type) (f e : A -> bool) l :
  filter e (filter f l) = filter (fun x => f x && e x) l.
Proof.
  induction l as [|x l IH]; simpl; [reflexivity|].
  destruct (f x); simpl; [|exact IH].
  destruct (e x); now rewrite IH.
Qed.

(** Where a filtered list has the first occurrence of an element, the
    list it was filtered from has it too. *)
Lemma filter_split_first (A : Type) (f : A -> bool) l :
  forall n1 a n2,
    filter f l = n1 ++ a :: n2 -> ~ In a n1 ->
    exists m1 m2,
      l = m1 ++ a :: m2 /\ filter f m1 = n1 /\ ~ In a m1 /\
      filter f m2 = n2.
Proof.
  induction l as [|x l IH]; intros n1 a n2 E Ha; simpl in E.
  - destruct n1; discriminate.
  - destruct (f x) eqn:Fx.
    + destruct n1 as [|y n1]; simpl in E; inversion E; subst.
      * exists [], l; auto.
      * destruct (IH _ _ _ H1) as (m1 & m2 & -> & E1 & Hm & E2).
        { intros H; apply Ha; right; exact H. }
        exists (y :: m1), m2; simpl; rewrite Fx, E1. repeat split; auto.
        intros [<- | H]; [apply Ha; left; reflexivity | contradiction].
    + destruct (IH _ _ _ E Ha) as (m1 & m2 & -> & E1 & Hm & E2).
      exists (x :: m1), m2; simpl; rewrite Fx. repeat split; auto.
      intros [<- | H]; [|contradiction].
      assert (Fa : In x (filter f (m1 ++ x :: m2)))
        by (rewrite E; apply in_or_app; right; left; reflexivity).
      apply filter_In in Fa. destruct Fa as [_ Fa]. congruence.
Qed.

Lemma articles_urls str_title text :
  map s_url (articles_of_response str_title text) =
  unique_urls (article_urls text).
Proof.
  unfold articles_of_response. rewrite fold_left_append_map. simpl.
  rewrite map_map. simpl. apply map_id.
Qed.

(** C2. For every index page the URLs of the returned list are pairwise
    distinct, each has the shape origin, [/p/], slug, none contains the
    excluded slug, they are exactly the matches of the URL pattern that
    do not contain it, and a URL comes before another in the list when
    its first occurrence in the page comes before every occurrence of the
    other. A page with the excluded article and two posts, one of them
    twice, gives the two posts in the order they are first seen. *)
Theorem index_scan_urls_distinct_canonical_ordered :
  forall (str_title : str -> str) (text : str),
    let urls := map s_url (articles_of_response str_title text) in
    NoDup urls /\
    (forall url, In url urls -> post_url url /\ ~ occurs excluded_slug url) /\
    (forall url, In url urls <->
                 In url (findall0 url_pattern text) /\
                 ~ occurs excluded_slug url) /\
    (forall l1 a l2 b l3,
        urls = l1 ++ a :: l2 ++ b :: l3 ->
        exists ma,
          In ma (finditer url_pattern text) /\ group0 ma = a /\
          forall mb, In mb (finditer url_pattern text) -> group0 mb = b ->
                     m_start ma < m_start mb) /\
    map s_url
        (articles_of_response str_title
           (u "https://tradecompanion.substack.com/p/my-trade-methodology-fundamentals https://tradecompanion.substack.com/p/b https://tradecompanion.substack.com/p/a https://tradecompanion.substack.com/p/b ")) =
    [u "https://tradecompanion.substack.com/p/b";
     u "https://tradecompanion.substack.com/p/a"].
Proof.
  intros str_title text urls.
  assert (Eu : urls = unique_urls (article_urls text))
    by apply articles_urls.
  assert (Hin : forall url, In url urls <->
                 In url (findall0 url_pattern text) /\
                 ~ occurs excluded_slug url).
  { intros url. rewrite Eu, unique_urls_In. apply article_urls_In. }
  split; [rewrite Eu; apply unique_urls_NoDup|].
  split.
  { intros url H. apply Hin in H. destruct H as [H E]. split; [|exact E].
    eapply findall0_post_url; eauto. }
  split; [exact Hin|].
  split; [|vm_compute; reflexivity].
  intros l1 a l2 b l3 E.
  assert (Hab : a <> b).
  { pose proof (unique_urls_NoDup (article_urls text)) as N.
    rewrite <- Eu, E in N. apply NoDup_remove_2 in N.
    intros ->. apply N. apply in_or_app; right.
    apply in_or_app; right; left; reflexivity. }
  rewrite Eu in E. apply unique_urls_order in E.
  destruct E as (n1 & n2 & E & Ha & Hb & Hb2).
  rewrite article_urls_filter, filter_twice in E.
  pose proof E as E'.
  apply filter_split_first in E; [|exact Ha].
  destruct E as (m1 & m2 & Em & E1 & Hm1 & E2).
  apply (@first_match_before text a b m1 m2 Em); [|exact Hab].
  intros Hbm. apply Hb. rewrite <- E1. apply filter_In. split; [exact Hbm|].
  rewrite <- E2 in Hb2. apply filter_In in Hb2. tauto.
Qed.

(** C10. The index scanner reports a post URL only where the URL is
    followed at once by a whitespace character or a quote, and the slug
    has no slash, whitespace or quote in it; so a page that ends with its
    only post URL gives no article at all, while the same page with a
    space after the URL gives one. *)
Theorem index_scan_needs_terminator :
  (forall text m,
      In m (finditer url_pattern text) ->
      exists pre slug c post,
        text = pre ++ (TRADE_COMPANION_URL ++ u "/p/" ++ slug) ++ c :: post /\
        m_start m = length pre /\
        group0 m = TRADE_COMPANION_URL ++ u "/p/" ++ slug /\
        slug <> [] /\ Forall slug_char slug /\ terminator c = true) /\
  (forall str_title,
      articles_of_response str_title
        (u "<a href=https://tradecompanion.substack.com/p/some-post") = []) /\
  (forall str_title,
      map s_url
          (articles_of_response str_title
             (u "<a href=https://tradecompanion.substack.com/p/some-post ")) =
      [u "https://tradecompanion.substack.com/p/some-post"]).
Proof.
  split; [|split; intros; vm_compute; reflexivity].
  intros text m H. apply group0_sound in H.
  destruct H as (pre & post & E & Hs & _ & M).
  apply url_pattern_Matches in M.
  destruct M as [(slug & Eg & Hne & F) (c & post' & -> & Hc)].
  exists pre, slug, c, post'. rewrite <- Eg. repeat split; auto.
Qed.

(** *** The block extractor *)

Lemma fold_left_append_clean (f : str -> str) l :
  forall acc,
    fold_left (fun acc p => if nonempty (clean_html_text p)
                            then acc ++ [f (clean_html_text p)] else acc)
              l acc =
    acc ++ map f (filter nonempty (map clean_html_text l)).
Proof.
  induction l as [|x l IH]; intros acc; simpl.
  - now rewrite app_nil_r.
  - rewrite IH. destruct (nonempty (clean_html_text x)); [|reflexivity].
    simpl. now rewrite <- app_assoc.
Qed.

Lemma fold_left_headings (h : str) levels :
  forall acc,
    fold_left
      (fun text_blocks i =>
         fold_left
           (fun text_blocks t =>
              text_blocks ++
              [repeat_char (ch "#") (i - 1) ++ u " " ++ clean_html_text t])
           (findall1 (heading_pattern i) h) text_blocks)
      levels acc =
    acc ++ flat_map (fun i => map (heading_block i)
                                  (findall1 (heading_pattern i) h)) levels.
Proof.
  induction levels as [|i levels IH]; intros acc; simpl.
  - now rewrite app_nil_r.
  - rewrite IH.
    rewrite (fold_left_append_map
               (fun t => repeat_char (ch "#") (i - 1) ++ u " " ++ clean_html_text t)).
    now rewrite <- app_assoc.
Qed.

(** The blocks come in three groups: the headings level by level, the
    paragraphs, the list items. *)
Lemma text_blocks_groups html_content :
  text_blocks html_content =
  flat_map (fun i => map (heading_block i)
                         (findall1 (heading_pattern i)
                                   (remove_non_content html_content)))
           [2; 3; 4; 5; 6] ++
  filter nonempty
         (map clean_html_text
              (findall1 p_pattern (remove_non_content html_content))) ++
  map (app bullet)
      (filter nonempty
              (map clean_html_text
                   (findall1 li_pattern (remove_non_content html_content)))).
Proof.
  unfold text_blocks.
  rewrite (fold_left_append_clean (app bullet)).
  rewrite (fold_left_append_clean (fun s => s)), map_id.
  rewrite fold_left_headings. simpl seq. simpl app at 1.
  now rewrite <- app_assoc.
Qed.




(** *** Scanning a text whose first characters are known *)

Lemma sub_miss r repl x s :
  0 < min_len r -> match_at r (x :: s) = None ->
  sub r repl (x :: s) = x :: sub r repl s.
Proof.
  intros Hr E. pose proof (@sub_step r repl (x :: s) Hr) as H.
  now rewrite E in H.
Qed.

Lemma findall1_miss r x s :
  0 < min_len r -> match_at r (x :: s) = None ->
  findall1 r (x :: s) = findall1 r s.
Proof.
  intros Hr E. unfold findall1, finditer.
  rewrite finditer_from_cons, E by assumption. apply map_group_from.
Qed.

Lemma findall1_hit r w s g :
  0 < min_len r -> w <> [] ->
  match_at r (w ++ s) = Some (length w, g) ->
  findall1 r (w ++ s) =
  group (Match 0 (w ++ s) (length w) g) 1 :: findall1 r s.
Proof.
  intros Hr Hw E. unfold findall1, finditer.
  destruct w as [|x w]; [congruence|]. simpl app in *.
  rewrite finditer_from_cons, E by assumption. simpl.
  now rewrite finditer_from_skip_app, map_group_from.
Qed.

Ltac pattern_nonempty := apply Nat.ltb_lt; vm_compute; reflexivity.

(** Steps over the known characters at the head of the scanned text
    where the pattern has no match. *)
Ltac skip_known :=
  repeat first
    [ rewrite sub_miss by first [pattern_nonempty | reflexivity]
    | rewrite findall1_miss by first [pattern_nonempty | reflexivity] ].

Lemma remove_non_content_empty_p frag :
  remove_non_content (u "<p></p>" ++ frag) =
  u "<p></p>" ++ remove_non_content frag.
Proof.
  unfold remove_non_content. simpl app. skip_known. reflexivity.
Qed.

Lemma remove_non_content_empty_li frag :
  remove_non_content (u "<li></li>" ++ frag) =
  u "<li></li>" ++ remove_non_content frag.
Proof.
  unfold remove_non_content. simpl app. skip_known. reflexivity.
Qed.

Lemma remove_non_content_empty_heading i frag :
  In i [2; 3; 4; 5; 6] ->
  remove_non_content (empty_element (u "h" ++ digit i) ++ frag) =
  empty_element (u "h" ++ digit i) ++ remove_non_content frag.
Proof.
  intros Hi. simpl in Hi.
  repeat (destruct Hi as [<- | Hi];
          [unfold remove_non_content; simpl app; skip_known; reflexivity|]).
  destruct Hi.
Qed.

(** An empty paragraph at the head of the fragment leaves no block. *)
Lemma text_blocks_empty_p frag :
  text_blocks (u "<p></p>" ++ frag) = text_blocks frag.
Proof.
  rewrite !text_blocks_groups, remove_non_content_empty_p.
  set (h := remove_non_content frag).
  erewrite (@findall1_hit p_pattern (u "<p></p>") h);
    [|pattern_nonempty | discriminate | reflexivity].
  cbn [flat_map]. simpl (u "<p></p>" ++ h). skip_known. reflexivity.
Qed.

(** An empty list item at the head of the fragment leaves no block. *)
Lemma text_blocks_empty_li frag :
  text_blocks (u "<li></li>" ++ frag) = text_blocks frag.
Proof.
  rewrite !text_blocks_groups, remove_non_content_empty_li.
  set (h := remove_non_content frag).
  erewrite (@findall1_hit li_pattern (u "<li></li>") h);
    [|pattern_nonempty | discriminate | reflexivity].
  cbn [flat_map]. simpl (u "<li></li>" ++ h). skip_known. reflexivity.
Qed.

Lemma filter_nonempty_flat_map (f : str -> str) l :
  map f (filter nonempty (map clean_html_text l)) =
  flat_map (fun p => if nonempty (clean_html_text p)
                     then [f (clean_html_text p)] else []) l.
Proof.
  induction l as [|x l IH]; simpl; [reflexivity|].
  destruct (nonempty (clean_html_text x)); simpl; now rewrite IH.
Qed.

Lemma settled_nil : settled [].
Proof.
  split; [reflexivity|].
  intros r t Hr. simpl in Hr.
  repeat (destruct Hr as [<- | Hr]; [reflexivity|]). destruct Hr.
Qed.

Ltac use_settled Hf :=
  rewrite ?(Hf (heading_pattern 2)), ?(Hf (heading_pattern 3)),
    ?(Hf (heading_pattern 4)), ?(Hf (heading_pattern 5)),
    ?(Hf (heading_pattern 6)), ?(Hf p_pattern), ?(Hf li_pattern)
    by (simpl; tauto).

(** An empty paragraph at a settled point leaves no trace. *)
Lemma text_blocks_without_empty_p a b :
  settled a ->
  text_blocks (a ++ u "<p></p>" ++ b) = text_blocks (a ++ b).
Proof.
  intros [Hr Hf]. rewrite !text_blocks_groups, !Hr.
  rewrite remove_non_content_empty_p.
  set (A := remove_non_content a). set (B := remove_non_content b).
  cbn [flat_map]. use_settled Hf.
  erewrite (@findall1_hit p_pattern (u "<p></p>") B);
    [|pattern_nonempty | discriminate | reflexivity].
  simpl (u "<p></p>" ++ B). skip_known.
  rewrite !map_app, !filter_app. reflexivity.
Qed.

(** An empty list item at a settled point leaves no trace. *)
Lemma text_blocks_without_empty_li a b :
  settled a ->
  text_blocks (a ++ u "<li></li>" ++ b) = text_blocks (a ++ b).
Proof.
  intros [Hr Hf]. rewrite !text_blocks_groups, !Hr.
  rewrite remove_non_content_empty_li.
  set (A := remove_non_content a). set (B := remove_non_content b).
  cbn [flat_map]. use_settled Hf.
  erewrite (@findall1_hit li_pattern (u "<li></li>") B);
    [|pattern_nonempty | discriminate | reflexivity].
  simpl (u "<li></li>" ++ B). skip_known.
  rewrite !map_app, !filter_app. reflexivity.
Qed.

(** A complete paragraph is settled. *)
Lemma settled_paragraph : settled (u "<p>B</p>").
Proof.
  split.
  - intros t. unfold remove_non_content. simpl app. skip_known. reflexivity.
  - intros r t Hr.
    change (remove_non_content (u "<p>B</p>")) with (u "<p>B</p>").
    simpl in Hr.
    repeat (destruct Hr as [<- | Hr];
            [ first
                [ simpl app; skip_known; reflexivity
                | erewrite (@findall1_hit p_pattern (u "<p>B</p>") t);
                  [|pattern_nonempty | discriminate | reflexivity];
                  reflexivity ]
            | ]).
    destruct Hr.
Qed.

(** Inside the content of another element an empty paragraph is cleaned
    to a space of that element's text. *)
Lemma empty_paragraph_inside_item_leaves_space :
  text_blocks (u "<li>A<p></p>B</li>") = [bullet ++ u "A B"] /\
  text_blocks (u "<li>AB</li>") = [bullet ++ u "AB"] /\
  text_blocks (u "<li>A<p></p>B</li>") <> text_blocks (u "<li>AB</li>").
Proof.
  split; [vm_compute; reflexivity|].
  split; [vm_compute; reflexivity|].
  vm_compute; discriminate.
Qed.

(** C8 (amended). For every body fragment a paragraph or a list item
    whose inner content is empty once cleaned gives no block: each match
    of the paragraph pattern, and each match of the list-item pattern,
    gives one block when its cleaned text is not empty and none when it
    is. An empty paragraph or list item that stands at a settled point
    of the fragment (its head, or between its elements) can be taken out
    without any change to the blocks; so can paragraphs and items with
    nothing but blanks and tags in them in the examples. *)
Theorem empty_paragraphs_and_items_give_no_block :
  (forall html_content,
      let html := remove_non_content html_content in
      exists headings,
        text_blocks html_content =
        headings ++
        flat_map (fun p => if nonempty (clean_html_text p)
                           then [clean_html_text p] else [])
                 (findall1 p_pattern html) ++
        flat_map (fun li => if nonempty (clean_html_text li)
                            then [bullet ++ clean_html_text li] else [])
                 (findall1 li_pattern html)) /\
  (forall a b,
      settled a ->
      text_blocks (a ++ u "<p></p>" ++ b) = text_blocks (a ++ b)) /\
  (forall a b,
      settled a ->
      text_blocks (a ++ u "<li></li>" ++ b) = text_blocks (a ++ b)) /\
  (forall frag, text_blocks (u "<p></p>" ++ frag) = text_blocks frag) /\
  (forall frag, text_blocks (u "<li></li>" ++ frag) = text_blocks frag) /\
  text_blocks (u "<p></p>") = [] /\
  text_blocks (u "<p>B</p><p> <br/>&nbsp;</p><li>C</li><li> </li>") =
  text_blocks (u "<p>B</p><li>C</li>").
Proof.
  split.
  { intros html_content html. eexists. rewrite text_blocks_groups.
    fold html.
    rewrite <- (filter_nonempty_flat_map (app bullet)).
    rewrite <- (filter_nonempty_flat_map (fun s => s)), map_id.
    reflexivity. }
  split; [apply text_blocks_without_empty_p|].
  split; [apply text_blocks_without_empty_li|].
  split; [apply text_blocks_empty_p|].
  split; [apply text_blocks_empty_li|].
  split; vm_compute; reflexivity.
Qed.

(** An empty paragraph between a paragraph and a list item. *)
Lemma empty_paragraphs_and_items_give_no_block_witness :
  text_blocks (u "<p>B</p>" ++ u "<p></p>" ++ u "<li>C</li>") =
  text_blocks (u "<p>B</p>" ++ u "<li>C</li>").
Proof.
  apply (proj1 (proj2 empty_paragraphs_and_items_give_no_block)).
  exact settled_paragraph.
Defined.

Lemma text_blocks_empty_h2 frag :
  text_blocks (u "<h2></h2>" ++ frag) = u "# " :: text_blocks frag.
Proof.
  change (u "<h2></h2>") with (empty_element (u "h" ++ digit 2)).
  rewrite !text_blocks_groups.
  rewrite remove_non_content_empty_heading by (simpl; auto).
  set (h := remove_non_content frag).
  cbn [flat_map].
  erewrite (@findall1_hit (heading_pattern 2)
                          (empty_element (u "h" ++ digit 2)) h);
    [|pattern_nonempty | discriminate | reflexivity].
  simpl (empty_element _ ++ h). skip_known. reflexivity.
Qed.

(** An empty heading at a settled point adds one block, the marker of
    its level and a space, and changes nothing else. *)
Lemma text_blocks_with_empty_heading i a b :
  settled a -> In i [2; 3; 4; 5; 6] ->
  exists before after,
    text_blocks (a ++ b) = before ++ after /\
    text_blocks (a ++ empty_element (u "h" ++ digit i) ++ b) =
    before ++ [repeat_char (ch "#") (i - 1) ++ u " "] ++ after.
Proof.
  intros [Hr Hf] Hi.
  rewrite !text_blocks_groups, !Hr.
  rewrite remove_non_content_empty_heading by assumption.
  set (A := remove_non_content a). set (B := remove_non_content b).
  exists (flat_map (fun j => map (heading_block j)
                                 (findall1 (heading_pattern j) (A ++ B)))
                   (seq 2 (i - 2)) ++
          map (heading_block i) (findall1 (heading_pattern i) A)).
  exists (map (heading_block i) (findall1 (heading_pattern i) B) ++
          flat_map (fun j => map (heading_block j)
                                 (findall1 (heading_pattern j) (A ++ B)))
                   (seq (S i) (6 - i)) ++
          filter nonempty
                 (map clean_html_text (findall1 p_pattern (A ++ B))) ++
          map (app bullet)
              (filter nonempty
                      (map clean_html_text (findall1 li_pattern (A ++ B))))).
  simpl in Hi.
  repeat (destruct Hi as [<- | Hi];
    [ split;
      [ cbn [seq flat_map Nat.sub]; use_settled Hf;
        rewrite ?map_app, ?app_nil_r, <- ?app_assoc; reflexivity
      | match goal with
        | |- context [empty_element (u "h" ++ digit ?i) ++ B] =>
            cbn [seq flat_map Nat.sub]; use_settled Hf;
            erewrite (@findall1_hit (heading_pattern i)
                                    (empty_element (u "h" ++ digit i)) B);
            [|pattern_nonempty | discriminate | reflexivity];
            simpl (empty_element _ ++ B); skip_known;
            rewrite ?map_app, ?app_nil_r, <- ?app_assoc; reflexivity
        end ]
    | ]).
  destruct Hi.
Qed.

(** A fragment can hold an empty heading that gives no block: inside a
    script element the heading is cut out before the headings are
    looked for, and inside a heading of its own level it is part of that
    heading's text. *)
Lemma empty_heading_inside_script_gives_no_block :
  occurs (u "<h2></h2>") (u "<script><h2></h2></script>") /\
  text_blocks (u "<script><h2></h2></script>") = [] /\
  length (text_blocks (u "<script><h2></h2></script>")) =
  length (text_blocks (u "<script></script>")) /\
  text_blocks (u "<h2><h2></h2></h2>") = [u "# "] /\
  text_blocks (u "<h2></h2>") = [u "# "].
Proof.
  split; [exists (u "<script>"), (u "</script>"); reflexivity|].
  repeat split; vm_compute; reflexivity.
Qed.

(** C9 (amended). A heading whose inner content is empty once cleaned is
    kept: for every body fragment and every level from 2 to 6, each match
    of the heading pattern in what the cut-out of script, style, svg and
    figure elements leaves gives a block, and a match that cleans to
    nothing gives the block made of the level's marker, a space and no
    text. An empty heading that stands at a settled point of the
    fragment (its head, or between its elements) adds exactly that
    block, after the headings of the lower levels, and changes no other:
    the fragment has one block more. *)
Theorem empty_headings_give_a_block :
  (forall html_content i h,
      In i [2; 3; 4; 5; 6] ->
      In h (findall1 (heading_pattern i) (remove_non_content html_content)) ->
      clean_html_text h = [] ->
      In (repeat_char (ch "#") (i - 1) ++ u " ") (text_blocks html_content)) /\
  (forall i a b,
      settled a -> In i [2; 3; 4; 5; 6] ->
      exists before after,
        text_blocks (a ++ b) = before ++ after /\
        text_blocks (a ++ empty_element (u "h" ++ digit i) ++ b) =
        before ++ [repeat_char (ch "#") (i - 1) ++ u " "] ++ after) /\
  (forall i a b,
      settled a -> In i [2; 3; 4; 5; 6] ->
      length (text_blocks (a ++ empty_element (u "h" ++ digit i) ++ b)) =
      S (length (text_blocks (a ++ b)))) /\
  (forall frag, text_blocks (u "<h2></h2>" ++ frag) = u "# " :: text_blocks frag) /\
  text_blocks (u "<h2></h2>") = [u "# "] /\
  text_blocks (u "<p>B</p><h4> <b></b> </h4>") = [u "### "; u "B"].
Proof.
  split.
  { intros html_content i h Hi Hh Hc. rewrite text_blocks_groups.
    apply in_or_app; left. apply in_flat_map. exists i. split; [exact Hi|].
    apply in_map_iff. exists h. split; [|exact Hh].
    unfold heading_block. now rewrite Hc. }
  split; [intros; now apply text_blocks_with_empty_heading|].
  split.
  { intros i a b Ha Hi.
    destruct (@text_blocks_with_empty_heading i a b Ha Hi)
      as (before & after & -> & ->).
    rewrite !length_app. simpl. rewrite Nat.add_succ_r. reflexivity. }
  split; [apply text_blocks_empty_h2|].
  split; vm_compute; reflexivity.
Qed.

(** Levels 2 and 5 at work on concrete fragments. *)
Lemma empty_headings_give_a_block_witness :
  In (repeat_char (ch "#") (5 - 1) ++ u " ")
     (text_blocks (u "<p>x</p><h5> </h5>")) /\
  length (text_blocks ([] ++ empty_element (u "h" ++ digit 2) ++ u "<p>x</p>")) =
  S (length (text_blocks ([] ++ u "<p>x</p>"))).
Proof.
  split.
  - apply (proj1 empty_headings_give_a_block (u "<p>x</p><h5> </h5>") 5 (u " ")).
    + simpl; auto.
    + vm_compute. left; reflexivity.
    + vm_compute; reflexivity.
  - apply (proj1 (proj2 (proj2 empty_headings_give_a_block)) 2 []).
    + exact settled_nil.
    + simpl; auto.
Defined.

(** *** [find] *)

Lemma startswith_false s w : startswith s w = false <-> strip_prefix w s = None.
Proof.
  unfold startswith. destruct (strip_prefix w s); split; congruence.
Qed.

Lemma find_Some w s :
  forall i,
    find w s = Some i ->
    exists pre post,
      s = pre ++ w ++ post /\ length pre = i /\
      forall p1 p2, pre = p1 ++ p2 -> p2 <> [] ->
                    strip_prefix w (p2 ++ w ++ post) = None.
Proof.
  induction s as [|x s IH]; intros i H; simpl in H.
  - destruct (startswith [] w) eqn:E; [|discriminate].
    inversion H; subst i. apply startswith_true in E. destruct E as [r E].
    exists [], r. repeat split; auto.
    intros p1 p2 Hp. symmetry in Hp. apply app_eq_nil in Hp.
    destruct Hp as [_ ->]. congruence.
  - destruct (startswith (x :: s) w) eqn:E.
    + inversion H; subst i. apply startswith_true in E. destruct E as [r E].
      exists [], r. repeat split; auto.
      intros p1 p2 Hp. symmetry in Hp. apply app_eq_nil in Hp.
      destruct Hp as [_ ->]. congruence.
    + destruct (find w s) as [j|] eqn:F; [|discriminate].
      inversion H; subst i.
      destruct (IH j eq_refl) as (pre & post & -> & <- & Hpre).
      exists (x :: pre), post. repeat split; auto.
      intros p1 p2 Hp Hne. destruct p1 as [|y p1]; simpl in Hp.
      * subst p2. now apply startswith_false.
      * inversion Hp; subst. eauto.
Qed.

Lemma find_None w s :
  find w s = None -> forall pre t, s = pre ++ t -> strip_prefix w t = None.
Proof.
  induction s as [|x s IH]; simpl; intros H pre t E.
  - destruct (startswith [] w) eqn:S; [discriminate|].
    symmetry in E. apply app_eq_nil in E. destruct E as [_ ->].
    now apply startswith_false.
  - destruct (startswith (x :: s) w) eqn:S; [discriminate|].
    destruct (find w s) eqn:F; [discriminate|].
    destruct pre as [|y pre]; simpl in E.
    + subst t. now apply startswith_false.
    + inversion E; subst. eauto.
Qed.

Lemma find_None_not_in (c : char) s : find [c] s = None -> ~ In c s.
Proof.
  intros H Hin. apply in_split in Hin. destruct Hin as (l1 & l2 & ->).
  pose proof (@find_None _ _ H l1 (c :: l2) eq_refl) as E.
  simpl in E. now rewrite char_eqb_refl in E.
Qed.

Lemma find_Some_char (c : char) s i :
  find [c] s = Some i ->
  exists pre post, s = pre ++ c :: post /\ length pre = i /\ ~ In c pre.
Proof.
  intros H. apply find_Some in H. destruct H as (pre & post & -> & <- & Hpre).
  exists pre, post. repeat split; auto.
  intros Hin. apply in_split in Hin. destruct Hin as (l1 & l2 & ->).
  specialize (Hpre l1 (c :: l2) eq_refl). simpl in Hpre.
  rewrite char_eqb_refl in Hpre. discriminate Hpre. discriminate.
Qed.

(** *** Lazy repetition *)

Lemma rep_lazy_hit (A : Type) cs (k : str -> nat -> option A) a :
  forall s i x,
    Forall (fun c => cset_mem cs c = true) a ->
    (forall a1 a2, a = a1 ++ a2 -> a2 <> [] ->
                   k (a2 ++ s) (i + length a1) = None) ->
    k s (i + length a) = Some x ->
    rep_lazy cs 0 (a ++ s) i k = Some x.
Proof.
  induction a as [|c a IH]; intros s i x Ha Hk Hx.
  - simpl in *. rewrite Nat.add_0_r in Hx.
    destruct s; simpl; now rewrite Hx.
  - inversion Ha as [|? ? Hc Ha']; subst. simpl.
    pose proof (Hk [] (c :: a) eq_refl) as H0. simpl in H0.
    rewrite Nat.add_0_r in H0. rewrite H0 by discriminate.
    rewrite Hc. apply IH; auto.
    + intros a1 a2 -> Hne.
      specialize (Hk (c :: a1) a2 eq_refl Hne). simpl in Hk.
      now rewrite Nat.add_succ_r in Hk.
    + simpl in Hx. now rewrite Nat.add_succ_r in Hx.
Qed.

Lemma rep_lazy_None (A : Type) cs (k : str -> nat -> option A) s :
  forall i,
    (forall a s', s = a ++ s' -> Forall (fun c => cset_mem cs c = true) a ->
                  k s' (i + length a) = None) ->
    rep_lazy cs 0 s i k = None.
Proof.
  induction s as [|c s IH]; intros i Hk.
  - simpl. pose proof (Hk [] [] eq_refl (Forall_nil _)) as H0.
    simpl in H0. rewrite Nat.add_0_r in H0. now rewrite H0.
  - simpl. pose proof (Hk [] (c :: s) eq_refl (Forall_nil _)) as H0.
    simpl in H0. rewrite Nat.add_0_r in H0. rewrite H0.
    destruct (cset_mem cs c) eqn:Hc; [|reflexivity].
    apply IH. intros a s' -> Ha.
    specialize (Hk (c :: a) s' eq_refl (Forall_cons _ Hc Ha)).
    simpl in Hk. now rewrite Nat.add_succ_r in Hk.
Qed.

(** *** Elements *)

Lemma strip_prefix_head_neq (x y : char) w s :
  x <> y -> strip_prefix (x :: w) (y :: s) = None.
Proof. intros H. simpl. apply char_eqb_neq in H. now rewrite H. Qed.

Lemma element_miss o c t :
  strip_prefix o t = None -> match_at (element_pattern o c) t = None.
Proof.
  intros H. unfold match_at, element_pattern. rewrite bt_Cat.
  now apply bt_Lit_miss.
Qed.

Lemma bt_Rep_lazy (A : Type) cs min s i g
      (k : str -> nat -> caps -> option A) :
  bt (Rep cs min false) s i g k = rep_lazy cs min s i (fun s' j => k s' j g).
Proof. reflexivity. Qed.

Lemma element_match o c a inner post :
  ~ In (ch ">") a ->
  (forall i1 i2, inner = i1 ++ i2 -> i2 <> [] ->
                 strip_prefix c (i2 ++ c ++ post) = None) ->
  match_at (element_pattern o c) (o ++ a ++ u ">" ++ inner ++ c ++ post) =
  Some (length o + length a + 1 + length inner + length c,
        [(1, (length o + length a + 1,
              length o + length a + 1 + length inner))]).
Proof.
  intros Ha Hinner. unfold match_at, element_pattern.
  rewrite bt_Cat, bt_Lit_app, bt_Cat, bt_Rep_lazy.
  apply rep_lazy_hit.
  - now apply Forall_not_gt.
  - intros a1 a2 -> Hne. rewrite bt_Cat. apply bt_Lit_miss.
    destruct a2 as [|y a2]; [congruence|].
    apply (@strip_prefix_head_neq (ch ">") y). intros <-. apply Ha.
    apply in_or_app; right; left; reflexivity.
  - rewrite bt_Cat, bt_Lit_app, bt_Cat, bt_Group, bt_Rep_lazy.
    apply rep_lazy_hit.
    + rewrite Forall_forall. reflexivity.
    + intros i1 i2 -> Hne. apply bt_Lit_miss. now apply (Hinner i1).
    + rewrite bt_Lit_app. simpl. reflexivity.
Qed.

Lemma element_sound o c w rest g :
  Matches (element_pattern o c) w rest 0 [] g ->
  exists a inner,
    w = o ++ a ++ u ">" ++ inner ++ c /\ ~ In (ch ">") a /\
    g = [(1, (length o + length a + 1,
              length o + length a + 1 + length inner))].
Proof.
  simpl.
  intros (w1 & w2 & g1 & -> & [-> ->] & w3 & w4 & g2 & -> & (F & _ & ->) &
          w5 & w6 & g3 & -> & [-> ->] & w7 & w8 & g4 & -> &
          (g5 & (_ & _ & ->) & ->) & [-> ->]).
  exists w3, w7. repeat split.
  apply Forall_not_gt. exact F.
Qed.

(** Where the first closing bracket of a text is. *)
Lemma first_gt_split X Y body Z :
  ~ In (ch ">") X ->
  X ++ ch ">" :: body = Y ++ ch ">" :: Z ->
  exists W, body = W ++ Z.
Proof.
  revert Y; induction X as [|x X IH]; intros Y HX E.
  - destruct Y as [|y Y]; simpl in E.
    + inversion E. now exists [].
    + inversion E; subst. exists (Y ++ [ch ">"]).
      now rewrite <- app_assoc.
  - destruct Y as [|y Y]; simpl in E.
    + inversion E; subst. exfalso. apply HX; left; reflexivity.
    + inversion E; subst. apply (IH Y); auto.
      intros H; apply HX; right; exact H.
Qed.

Lemma skipn_app_length (A : Type) (l1 l2 : list A) n :
  n = length l1 -> skipn n (l1 ++ l2) = l2.
Proof.
  intros ->. now rewrite skipn_app, skipn_all, Nat.sub_diag.
Qed.

Lemma firstn_app_length (A : Type) (l1 l2 : list A) n :
  n = length l1 -> firstn n (l1 ++ l2) = l1.
Proof.
  intros ->. now rewrite firstn_app, firstn_all, Nat.sub_diag, app_nil_r.
Qed.

Lemma skipn_past_head (A : Type) (o a : list A) x rest :
  skipn (length o + length a + 1) (o ++ a ++ x :: rest) = rest.
Proof.
  replace (o ++ a ++ x :: rest) with ((o ++ a ++ [x]) ++ rest)
    by (rewrite <- !app_assoc; reflexivity).
  apply skipn_app_length. rewrite !length_app. simpl. lia.
Qed.

Lemma search_from_hit r s pos n g :
  match_at r s = Some (n, g) -> search_from r s pos = Some (Match pos s n g).
Proof. intros H. destruct s; simpl; now rewrite H. Qed.

(** [search] with an element pattern finds what [first_inner] reads off
    the text. *)
Lemma search_element o c text :
  ~ In (ch ">") o ->
  match search (element_pattern o c) text with
  | Some m => first_inner o c text = Some (group m 1)
  | None => first_inner o c text = None
  end.
Proof.
  intros Ho. unfold first_inner, search.
  destruct (find o text) as [i|] eqn:F.
  2:{ (* the opening text is nowhere *)
    assert (E : search_from (element_pattern o c) text 0 = None).
    { apply search_from_None. intros pre t ->. apply element_miss.
      eapply find_None; eauto. }
    now rewrite E. }
  apply find_Some in F. destruct F as (pre & after & -> & <- & Hpre).
  rewrite search_from_skip
    by (intros p1 p2 Hp Hne; apply element_miss; eauto).
  replace (skipn (length pre + length o) (pre ++ o ++ after)) with after
    by (rewrite app_assoc; symmetry; apply skipn_app_length;
        now rewrite length_app).
  simpl Nat.add.
  destruct (find (u ">") after) as [j|] eqn:G.
  2:{ (* no closing bracket after it *)
    apply find_None_not_in in G.
    assert (E : search_from (element_pattern o c) (o ++ after) (length pre) = None).
    { apply search_from_None. intros pre' t Et.
      destruct (match_at (element_pattern o c) t) as [[n g]|] eqn:M; [|reflexivity].
      exfalso. apply match_at_sound in M. destruct M as (w & s' & -> & _ & M).
      apply element_sound in M. destruct M as (a & inner & -> & _).
      assert (Hin : In (ch ">") (o ++ after)).
      { rewrite Et. apply in_or_app; right.
        rewrite <- !app_assoc. apply in_or_app; right.
        apply in_or_app; right. left; reflexivity. }
      apply in_app_or in Hin. tauto. }
    now rewrite E. }
  apply find_Some_char in G. destruct G as (a & body & -> & <- & Ha).
  fold (ch ">") in *.
  replace (skipn (S (length a)) (a ++ ch ">" :: body)) with body
    by (change (a ++ ch ">" :: body) with (a ++ [ch ">"] ++ body);
        rewrite app_assoc; symmetry; apply skipn_app_length;
        rewrite length_app; simpl; lia).
  destruct (find c body) as [k|] eqn:K.
  2:{ (* no closing text after the bracket *)
    assert (E : search_from (element_pattern o c)
                            (o ++ a ++ ch ">" :: body) (length pre) = None).
    { apply search_from_None. intros pre' t Et.
      destruct (match_at (element_pattern o c) t) as [[n g]|] eqn:M; [|reflexivity].
      exfalso. apply match_at_sound in M. destruct M as (w & s' & -> & _ & M).
      apply element_sound in M. destruct M as (a' & inner & -> & _).
      assert (Et' : (o ++ a) ++ ch ">" :: body =
                    (pre' ++ o ++ a') ++ ch ">" :: (inner ++ c ++ s')).
      { rewrite <- !app_assoc. rewrite Et, <- !app_assoc. reflexivity. }
      apply first_gt_split in Et'.
      - destruct Et' as [W EW].
        pose proof (@find_None _ _ K (W ++ inner) (c ++ s')) as N.
        rewrite strip_prefix_app in N.
        discriminate N. rewrite EW, <- app_assoc. reflexivity.
      - intros Hin. apply in_app_or in Hin. tauto. }
    now rewrite E. }
  apply find_Some in K. destruct K as (inner & post & -> & <- & Hinner).
  rewrite (@firstn_app_length _ inner (c ++ post)) by reflexivity.
  change (ch ">" :: inner ++ c ++ post) with (u ">" ++ inner ++ c ++ post).
  rewrite (@search_from_hit _ _ (length pre) _ _
             (@element_match o c a inner post Ha Hinner)).
  unfold group; simpl.
  replace (length o + length a + 1 + length inner - (length o + length a + 1))
    with (length inner) by lia.
  rewrite skipn_past_head. now rewrite firstn_app_length.
Qed.

(** *** Title and date *)







Lemma app_same_length (A : Type) (a b x y : list A) :
  length a = length b -> a ++ x = b ++ y -> a = b /\ x = y.
Proof.
  revert b; induction a as [|c a IH]; intros [|d b] L E;
    try discriminate; simpl in *.
  - auto.
  - inversion E; subst. destruct (IH b) as [-> ->]; auto.
Qed.

Lemma find_first_occurrence w pre post :
  find w (pre ++ w ++ post) = Some (length pre) ->
  forall p1 p2, pre = p1 ++ p2 -> p2 <> [] ->
                strip_prefix w (p2 ++ w ++ post) = None.
Proof.
  intros H. apply find_Some in H.
  destruct H as (pre' & post' & E & L & Hpre).
  symmetry in E. apply app_same_length in E; [|congruence].
  destruct E as [<- E]. apply app_inv_head in E. subst post'. exact Hpre.
Qed.


























(** *** The article record and the tool *)

Lemma search_Lit_absent w r text :
  find w text = None -> search (Lit w ;; r) text = None.
Proof.
  intros H. apply search_from_None. intros pre t ->.
  unfold match_at. rewrite bt_Cat. apply bt_Lit_miss.
  eapply find_None; eauto.
Qed.

Lemma fetch_without_container w url cookies text :
  get_cookies_dict w = Ok cookies ->
  http_get w url cookies = Some text ->
  search content_pattern text = None ->
  search article_pattern text = None ->
  fetch_substack_article_text w url =
  Ok (Some (Article (extract_title text) (u "Adam Mancini")
                    (extract_date text)
                    (u "Could not extract article content."))).
Proof.
  intros Hc Hg H1 H2. unfold fetch_substack_article_text.
  rewrite Hc, Hg. unfold article_of_response, text_content, content_match.
  now rewrite H1, H2.
Qed.

(** C3. When the page is fetched and neither the container pattern nor
    the [article] pattern matches it, the call still returns a record:
    its content is the literal [Could not extract article content.], its
    title and date are extracted as on any other page, its author is the
    fixed one. That is so in particular for every page with no [<div]
    and no [<article] in it. *)
Theorem missing_body_gives_placeholder :
  forall (w : world) (url : str) (cookies : dict) (text : str),
    get_cookies_dict w = Ok cookies ->
    http_get w url cookies = Some text ->
    (search content_pattern text = None /\
     search article_pattern text = None) \/
    (find (u "<div") text = None /\ find (u "<article") text = None) ->
    fetch_substack_article_text w url =
    Ok (Some (Article (extract_title text) (u "Adam Mancini")
                      (extract_date text)
                      (u "Could not extract article content."))).
Proof.
  intros w url cookies text Hc Hg [[H1 H2] | [H1 H2]].
  - now apply fetch_without_container with (cookies := cookies).
  - apply fetch_without_container with (cookies := cookies); auto.
    + now apply search_Lit_absent.
    + now apply search_Lit_absent.
Qed.

(** A page with a title and a date and no container. *)
Lemma missing_body_gives_placeholder_witness :
  fetch_substack_article_text
    (World NoFile
           (fun _ _ => Some (u "<h1>Title Here</h1><time " ++ datetime_eq ++
                             u "2024-05-01" ++ [DQ] ++ u "></time><p>text</p>")))
    (u "https://tradecompanion.substack.com/p/a") =
  Ok (Some (Article (u "Title Here") (u "Adam Mancini") (u "2024-05-01")
                    (u "Could not extract article content."))).
Proof.
  refine (eq_trans
            (@missing_body_gives_placeholder
               (World NoFile
                  (fun _ _ => Some (u "<h1>Title Here</h1><time " ++ datetime_eq
                                    ++ u "2024-05-01" ++ [DQ]
                                    ++ u "></time><p>text</p>")))
               (u "https://tradecompanion.substack.com/p/a") []
               _ eq_refl eq_refl _) _).
  - right. split; vm_compute; reflexivity.
  - vm_compute; reflexivity.
Defined.

Lemma get_cookies_dict_Ok w :
  cookies_at w <> Malformed -> exists cookies, get_cookies_dict w = Ok cookies.
Proof.
  unfold get_cookies_dict. destruct (cookies_at w); eauto. congruence.
Qed.

(** With a cookie file that is absent or well formed the tool returns a
    string in every run. *)
Lemma latest_article_returns str_title w :
  cookies_at w <> Malformed ->
  exists cookies,
    get_cookies_dict w = Ok cookies /\
    get_latest_trade_companion_adam_mancini_article str_title w =
    Ok match http_get w TRADE_COMPANION_URL cookies with
       | None => unavailable_message
       | Some text =>
           match articles_of_response str_title text with
           | [] => unavailable_message
           | latest :: _ =>
               match http_get w (s_url latest) cookies with
               | None => failed_message
               | Some page =>
                   formatted_article (article_of_response page) (s_url latest)
               end
           end
       end.
Proof.
  intros H. destruct (get_cookies_dict_Ok w H) as [cookies E].
  exists cookies. split; [exact E|].
  unfold get_latest_trade_companion_adam_mancini_article,
    fetch_trade_companion_articles, fetch_substack_article_text.
  rewrite E.
  destruct (http_get w TRADE_COMPANION_URL cookies) as [text|]; [|reflexivity].
  destruct (articles_of_response str_title text) as [|latest rest];
    [reflexivity|].
  now destruct (http_get w (s_url latest) cookies).
Qed.

(** C4 (the code falls short). The cookie file is read before the [try]
    of either fetch function: when it is there and cannot be read as a
    list of cookies, the exception leaves the tool, whatever the site
    answers. In every other run the tool returns a string: the
    unavailability message when the index gives no URL, the failure
    message when the latest article cannot be fetched, the formatted
    article otherwise. *)
Theorem latest_article_raises_on_malformed_cookies :
  (forall str_title site,
      get_latest_trade_companion_adam_mancini_article
        str_title (World Malformed site) = Raised) /\
  (forall str_title w,
      cookies_at w <> Malformed ->
      exists message,
        get_latest_trade_companion_adam_mancini_article str_title w =
        Ok message) /\
  (forall str_title w cookies,
      get_cookies_dict w = Ok cookies ->
      get_latest_trade_companion_adam_mancini_article str_title w =
      Ok match http_get w TRADE_COMPANION_URL cookies with
         | None => unavailable_message
         | Some text =>
             match articles_of_response str_title text with
             | [] => unavailable_message
             | latest :: _ =>
                 match http_get w (s_url latest) cookies with
                 | None => failed_message
                 | Some page =>
                     formatted_article (article_of_response page)
                                       (s_url latest)
                 end
             end
         end).
Proof.
  split; [reflexivity|]. split.
  - intros str_title w H.
    destruct (latest_article_returns str_title w H) as (cookies & _ & E).
    eexists; exact E.
  - intros str_title w cookies Hc.
    assert (H : cookies_at w <> Malformed).
    { unfold get_cookies_dict in Hc. intros E. rewrite E in Hc. discriminate. }
    destruct (latest_article_returns str_title w H) as (cookies' & E' & E).
    rewrite Hc in E'. inversion E'; subst cookies'. exact E.
Qed.

(** *** The cookie dictionary *)

Lemma str_eqb_refl s : str_eqb s s = true.
Proof. now apply str_eqb_eq. Qed.

Lemma str_eqb_neq a b : str_eqb a b = false <-> a <> b.
Proof.
  split.
  - intros H E. apply str_eqb_eq in E. congruence.
  - intros H. destruct (str_eqb a b) eqn:E; [|reflexivity].
    apply str_eqb_eq in E. contradiction.
Qed.

Lemma dict_get_set_same d key value :
  dict_get (dict_set d key value) key = Some value.
Proof.
  induction d as [|[k0 v0] d IH]; simpl.
  - now rewrite str_eqb_refl.
  - destruct (str_eqb k0 key) eqn:E; simpl; rewrite E; auto.
Qed.

Lemma dict_get_set_other d key value other :
  key <> other ->
  dict_get (dict_set d key value) other = dict_get d other.
Proof.
  intros H. induction d as [|[k0 v0] d IH]; simpl.
  - apply str_eqb_neq in H. now rewrite H.
  - destruct (str_eqb k0 key) eqn:E; simpl.
    + apply str_eqb_eq in E. subst k0.
      apply str_eqb_neq in H. now rewrite H.
    + now rewrite IH.
Qed.

Lemma dict_set_keys d key value name :
  In name (map fst (dict_set d key value)) <->
  name = key \/ In name (map fst d).
Proof.
  induction d as [|[k0 v0] d IH]; simpl.
  - intuition.
  - destruct (str_eqb k0 key) eqn:E; simpl.
    + apply str_eqb_eq in E. subst k0. intuition.
    + rewrite IH. intuition.
Qed.

Lemma dict_set_NoDup d key value :
  NoDup (map fst d) -> NoDup (map fst (dict_set d key value)).
Proof.
  induction d as [|[k0 v0] d IH]; simpl; intros N.
  - repeat constructor. intros [].
  - inversion N as [|? ? Hk N']; subst.
    destruct (str_eqb k0 key) eqn:E; simpl.
    + constructor; assumption.
    + constructor; [|auto].
      rewrite dict_set_keys. intros [-> | H]; [|contradiction].
      rewrite str_eqb_refl in E. discriminate.
Qed.

Lemma cookies_fold_snoc (cookies : list (str * str)) c d0 :
  fold_left (fun d cookie => dict_set d (fst cookie) (snd cookie))
            (cookies ++ [c]) d0 =
  dict_set (fold_left (fun d cookie => dict_set d (fst cookie) (snd cookie))
                      cookies d0)
           (fst c) (snd c).
Proof. now rewrite fold_left_app. Qed.

Lemma cookies_fold_spec cookies :
  let d := fold_left (fun d cookie => dict_set d (fst cookie) (snd cookie))
                     cookies [] in
  NoDup (map fst d) /\
  (forall name, dict_get d name = last_value name cookies) /\
  (forall name, In name (map fst d) <-> In name (map fst cookies)).
Proof.
  induction cookies as [|c cookies IH] using rev_ind.
  - simpl. repeat split; auto; constructor.
  - cbv zeta in *. rewrite cookies_fold_snoc. destruct IH as (N & G & K).
    split; [now apply dict_set_NoDup|]. split.
    + intros name. unfold last_value. rewrite rev_app_distr. simpl.
      destruct (str_eqb (fst c) name) eqn:E.
      * apply str_eqb_eq in E. subst name. simpl. apply dict_get_set_same.
      * rewrite dict_get_set_other by (now apply str_eqb_neq). apply G.
    + intros name. rewrite dict_set_keys, K, map_app, in_app_iff. simpl.
      intuition.
Qed.

(** X1. Without a cookie file the cookie dictionary is empty. With a
    file that lists cookies the dictionary has one entry per cookie
    name, and for a name that occurs more than once the value of the last
    cookie with that name. *)
Theorem cookies_dict_last_value_wins :
  (forall site, get_cookies_dict (World NoFile site) = Ok []) /\
  (forall site cookies,
      exists d,
        get_cookies_dict (World (CookieList cookies) site) = Ok d /\
        NoDup (map fst d) /\
        (forall name, In name (map fst d) <-> In name (map fst cookies)) /\
        (forall name, dict_get d name = last_value name cookies)).
Proof.
  split; [reflexivity|]. intros site cookies.
  destruct (cookies_fold_spec cookies) as (N & G & K).
  eexists. split; [reflexivity|]. repeat split; auto; apply K.
Qed.

(** *** More on [clean_html_text] *)

(** A greedy repetition that nothing follows takes the whole run. *)
Lemma rep_greedy_maximal cs (g0 : caps) s :
  forall min i n g,
    rep_greedy cs min s i (fun _ j => Some (j, g0)) = Some (n, g) ->
    exists w s0,
      s = w ++ s0 /\ n = i + length w /\
      match s0 with c :: _ => cset_mem cs c = false | [] => True end.
Proof.
  induction s as [|c s IH]; intros min i n g H; simpl in H.
  - destruct min; [|discriminate]. inversion H; subst.
    exists [], []. simpl. auto.
  - destruct (cset_mem cs c) eqn:Hc.
    + destruct (rep_greedy cs (pred min) s (S i) _) as [[n' g']|] eqn:E.
      * inversion H; subst. apply IH in E.
        destruct E as (w & s0 & -> & -> & Hs0).
        exists (c :: w), s0. simpl. repeat split; auto; lia.
      * destruct min; [|discriminate]. exfalso. revert E.
        apply rep_greedy_total. discriminate.
    + destruct min; [|discriminate]. inversion H; subst.
      exists [], (c :: s). simpl. auto.
Qed.

Lemma match_at_plus_maximal cs w s0 g :
  match_at (Rep cs 1 true) (w ++ s0) = Some (length w, g) ->
  match s0 with c :: _ => cset_mem cs c = false | [] => True end.
Proof.
  unfold match_at. simpl bt. intros H. apply rep_greedy_maximal in H.
  destruct H as (w1 & s1 & E & L & Hs1). simpl in L.
  apply app_same_length in E; [|congruence]. destruct E as [_ ->]. exact Hs1.
Qed.

Lemma collapse_single_spaced s :
  single_spaced (collapse_spaces s) = true /\
  (starts_space s = false -> starts_space (collapse_spaces s) = false).
Proof.
  unfold collapse_spaces. apply sub_ind.
  - simpl; lia.
  - split; reflexivity.
  - intros x s0 o E [H1 H2]. apply match_at_plus_None in E.
    simpl in E. rewrite orb_false_r in E. simpl. rewrite E. simpl. auto.
  - intros w s0 g o Hw M E [H1 H2].
    apply match_at_plus_maximal in E.
    assert (Hs0 : starts_space s0 = false).
    { destruct s0 as [|c s0]; [reflexivity|]. simpl in *.
      now rewrite orb_false_r in E. }
    split.
    + simpl. rewrite (H2 Hs0), H1. reflexivity.
    + destruct w as [|c w]; [congruence|].
      simpl in M. destruct M as (F & _ & _).
      inversion F as [|? ? Hc _]; subst. simpl in Hc.
      rewrite orb_false_r in Hc. simpl. rewrite Hc. discriminate.
Qed.

Lemma single_spaced_app a b :
  single_spaced (a ++ b) = true ->
  single_spaced a = true /\ single_spaced b = true.
Proof.
  induction a as [|x a IH]; simpl; intros H; [auto|].
  apply andb_true_iff in H. destruct H as [H1 H2].
  destruct (IH H2) as [Ha Hb]. split; [|exact Hb].
  rewrite Ha, andb_true_r.
  destruct a as [|y a]; simpl in *; [now rewrite andb_false_r | exact H1].
Qed.

Lemma strip_single_spaced s :
  single_spaced s = true -> single_spaced (strip s) = true.
Proof.
  intros H. destruct (strip_sublist s) as (pre & suf & E).
  rewrite E in H. apply single_spaced_app in H. destruct H as [_ H].
  apply single_spaced_app in H. tauto.
Qed.

Lemma clean_single_spaced html_text :
  single_spaced (clean_html_text html_text) = true.
Proof.
  unfold clean_html_text. apply strip_single_spaced.
  rewrite sub_newlines_id by apply sub_spaces_plain.
  apply collapse_single_spaced.
Qed.

(** X2. In the result of [clean_html_text] no whitespace character is
    followed by another one, and the only whitespace character left is
    the plain space: every run of blanks, tabs and line breaks of the
    input, and of what the tags leave, is one space. *)
Theorem clean_html_text_single_spaced :
  forall html_text,
    single_spaced (clean_html_text html_text) = true /\
    Forall (fun c => isspace c = true -> c = 32%N)
           (clean_html_text html_text).
Proof.
  intros html_text. split; [apply clean_single_spaced|].
  eapply Forall_impl; [|apply clean_spaces].
  intros c H Hc. unfold odd_space in H. rewrite Hc in H. simpl in H.
  apply negb_false_iff in H. now apply char_eqb_eq in H.
Qed.

(** [sub] leaves a text alone in which its pattern has no match. *)
Lemma sub_no_match r repl s :
  0 < min_len r ->
  (forall pre t, s = pre ++ t -> match_at r t = None) ->
  sub r repl s = s.
Proof.
  intros Hr. induction s as [|x s IH]; intros H.
  - now apply sub_from_nil.
  - rewrite sub_miss; auto.
    + rewrite IH; [reflexivity|]. intros pre t ->. apply (H (x :: pre)).
      reflexivity.
    + apply (H []). reflexivity.
Qed.

Lemma sub_Lit_no_occurrence w repl s :
  w <> [] -> ~ occurs w s -> sub (Lit w) repl s = s.
Proof.
  intros Hw H. apply sub_no_match.
  - simpl. destruct w; [congruence | simpl; lia].
  - intros pre t ->.
    destruct (match_at (Lit w) t) as [[n g]|] eqn:E; [|reflexivity].
    exfalso. apply H. apply match_at_sound in E.
    destruct E as (w0 & s' & -> & _ & [-> _]). now exists pre, s'.
Qed.

Lemma sub_tags_no_bracket repl s :
  ~ In (ch "<") s -> sub tag_pattern repl s = s.
Proof.
  intros H. apply sub_no_match; [simpl; lia|].
  intros pre t ->.
  destruct (match_at tag_pattern t) as [[n g]|] eqn:E; [|reflexivity].
  exfalso. apply H. apply match_at_sound in E.
  destruct E as (w0 & s' & -> & _ & M). apply tag_pattern_Matches in M.
  destruct (tag_head M) as [t' ->].
  apply in_or_app; right. left; reflexivity.
Qed.

Lemma strip_no_space s :
  Forall (fun c => isspace c = false) s -> strip s = s.
Proof.
  intros H. unfold strip, rstrip.
  assert (L : forall t, Forall (fun c => isspace c = false) t -> lstrip t = t).
  { intros t Ht. apply lstrip_fixed. destruct Ht; [reflexivity | assumption]. }
  rewrite (L s H), L, rev_involutive; [reflexivity|].
  now apply Forall_rev.
Qed.

Lemma collapse_no_space s :
  Forall (fun c => isspace c = false) s -> collapse_spaces s = s.
Proof.
  intros H. apply sub_no_match; [simpl; lia|].
  intros pre t ->. apply Forall_app in H. destruct H as [_ H].
  destruct t as [|c t]; [reflexivity|].
  inversion H; subst. apply match_at_plus_miss. simpl.
  now rewrite orb_false_r.
Qed.

(** X3. A text with no opening angle bracket and none of the six
    entities is only collapsed and trimmed: unknown entities and lone
    ampersands stay as they are. Without whitespace either, the text
    comes back unchanged. *)
Theorem clean_html_text_plain_text :
  forall text,
    ~ In (ch "<") text ->
    (forall e, In e entities -> ~ occurs e text) ->
    clean_html_text text = strip (collapse_spaces text) /\
    (Forall (fun c => isspace c = false) text -> clean_html_text text = text).
Proof.
  intros text Hlt He.
  assert (E : clean_html_text text = strip (collapse_spaces text)).
  { unfold clean_html_text. rewrite sub_tags_no_bracket by assumption.
    rewrite (@sub_Lit_no_occurrence (u "&nbsp;") _ text),
      (@sub_Lit_no_occurrence (u "&amp;") _ text),
      (@sub_Lit_no_occurrence (u "&lt;") _ text),
      (@sub_Lit_no_occurrence (u "&gt;") _ text),
      (@sub_Lit_no_occurrence (u "&quot;") _ text),
      (@sub_Lit_no_occurrence (u "&#39;") _ text)
      by (try discriminate; apply He; simpl; auto 10).
    rewrite sub_newlines_id by apply sub_spaces_plain. reflexivity. }
  split; [exact E|]. intros Hs.
  rewrite E, collapse_no_space by assumption. now apply strip_no_space.
Qed.

Lemma contains_occurs_false w s : contains w s = false -> ~ occurs w s.
Proof.
  intros H O. apply contains_occurs in O. congruence.
Qed.

(** A text with a lone ampersand and an entity that is not decoded. *)
Lemma clean_html_text_plain_text_witness :
  clean_html_text (u " R&D  budget &copy; 2024 ") =
  strip (collapse_spaces (u " R&D  budget &copy; 2024 ")).
Proof.
  apply (@clean_html_text_plain_text (u " R&D  budget &copy; 2024 ")).
  - vm_compute. intuition discriminate.
  - intros e He. apply contains_occurs_false. simpl in He.
    repeat (destruct He as [<- | He]; [vm_compute; reflexivity|]).
    destruct He.
Defined.

(** *** The blocks and the rendered body *)

Lemma clean_no_newline html_text : ~ In LF (clean_html_text html_text).
Proof.
  intros H. pose proof (clean_spaces html_text) as F.
  rewrite Forall_forall in F. apply F in H. discriminate.
Qed.

Lemma heading_block_ok i h :
  In i [2; 3; 4; 5; 6] ->
  heading_block i h <> [] /\ ~ In LF (heading_block i h) /\
  hd 0%N (heading_block i h) = ch "#".
Proof.
  intros Hi. unfold heading_block, repeat_char. split; [|split].
  - intros E. apply (f_equal (@length char)) in E.
    rewrite !length_app in E. simpl in E. lia.
  - intros H. apply in_app_or in H. destruct H as [H | H].
    + apply repeat_spec in H. discriminate.
    + apply in_app_or in H. destruct H as [[H | []] | H]; [discriminate|].
      now apply clean_no_newline in H.
  - simpl in Hi.
    repeat (destruct Hi as [<- | Hi]; [reflexivity|]). destruct Hi.
Qed.

(** Every block has some text, no newline in it, and no whitespace at its
    start. *)
Lemma text_blocks_ok html_content block :
  In block (text_blocks html_content) ->
  block <> [] /\ ~ In LF block /\ isspace (hd 0%N block) = false.
Proof.
  rewrite text_blocks_groups. intros H.
  apply in_app_or in H. destruct H as [H | H].
  - apply in_flat_map in H. destruct H as (i & Hi & H).
    apply in_map_iff in H. destruct H as (h & <- & _).
    destruct (@heading_block_ok i h Hi) as (A & B & C).
    repeat split; auto. now rewrite C.
  - apply in_app_or in H. destruct H as [H | H].
    + apply filter_In in H. destruct H as [H N].
      apply in_map_iff in H. destruct H as (p & <- & _).
      repeat split.
      * destruct (clean_html_text p); [discriminate | discriminate].
      * apply clean_no_newline.
      * apply clean_head.
    + apply in_map_iff in H. destruct H as (li & <- & H).
      apply filter_In in H. destruct H as [H N].
      apply in_map_iff in H. destruct H as (p & <- & _).
      repeat split.
      * discriminate.
      * intros [E | [E | [E | [E | E]]]]; try discriminate.
        now apply clean_no_newline in E.
Qed.

(** X4. Every block that the extractor gives has some text, holds no
    newline and does not begin with whitespace. *)
Theorem text_blocks_one_line_each :
  forall html_content,
    Forall (fun block =>
              block <> [] /\ ~ In LF block /\
              isspace (hd 0%N block) = false)
           (text_blocks html_content).
Proof.
  intros html_content. apply Forall_forall. intros block.
  apply text_blocks_ok.
Qed.

(** Newlines in a row. *)
Lemma lf_runs_text p t :
  ~ In LF p -> lf_runs 0 (p ++ t) = lf_runs 0 t.
Proof.
  induction p as [|c p IH]; simpl; intros H; [reflexivity|].
  destruct (char_eqb c LF) eqn:E.
  - apply char_eqb_eq in E. subst c. exfalso. apply H; left; reflexivity.
  - apply IH. intros Hin. apply H; right; exact Hin.
Qed.

Lemma lf_runs_restart n s :
  s <> [] -> hd LF s <> LF -> lf_runs n s = lf_runs 0 s.
Proof.
  destruct s as [|c s]; [congruence|]. simpl. intros _ H.
  apply char_eqb_neq in H. now rewrite H.
Qed.

Lemma join_head sep (p : str) ps :
  p <> [] -> join sep (p :: ps) <> [] /\
             hd LF (join sep (p :: ps)) = hd LF p.
Proof.
  intros Hp. destruct p as [|c p]; [congruence|].
  destruct ps; simpl; split; auto; discriminate.
Qed.

Lemma join_lf_runs blocks :
  Forall (fun block => block <> [] /\ ~ In LF block) blocks ->
  lf_runs 0 (join [LF; LF] blocks) = true.
Proof.
  induction 1 as [|p blocks [Hp Hlf] F IH]; [reflexivity|].
  destruct blocks as [|q rest].
  - simpl. rewrite <- (app_nil_r p), lf_runs_text by assumption. reflexivity.
  - change (join [LF; LF] (p :: q :: rest))
      with (p ++ [LF; LF] ++ join [LF; LF] (q :: rest)).
    rewrite lf_runs_text by assumption.
    inversion F as [|? ? [Hq Hqlf] _]; subst.
    destruct (@join_head [LF; LF] q rest Hq) as [Hne Hhd].
    change (lf_runs 0 ([LF; LF] ++ join [LF; LF] (q :: rest)))
      with (lf_runs 2 (join [LF; LF] (q :: rest))).
    rewrite lf_runs_restart; [exact IH | exact Hne |].
    intros E. pose proof (eq_trans (eq_sym Hhd) E) as E'.
    destruct q as [|c q]; [congruence|]. simpl in E'.
    apply Hqlf; left; exact E'.
Qed.

Lemma lf_runs_triple pre r :
  forall n, lf_runs n (pre ++ [LF; LF; LF] ++ r) = false.
Proof.
  induction pre as [|c pre IH]; intros n.
  - simpl. destruct n as [|[|n]]; simpl; reflexivity.
  - simpl. destruct (char_eqb c LF); rewrite IH;
      [apply andb_false_r | reflexivity].
Qed.

Lemma lf_runs_no_triple s :
  lf_runs 0 s = true -> ~ occurs [LF; LF; LF] s.
Proof.
  intros H (l & r & ->). rewrite lf_runs_triple in H. discriminate.
Qed.

Lemma sub_newlines3_id s :
  ~ occurs [LF; LF; LF] s -> sub (Rep newline 3 true) [LF; LF] s = s.
Proof.
  intros H. apply sub_no_match; [simpl; lia|].
  intros pre t ->.
  destruct (match_at (Rep newline 3 true) t) as [[n g]|] eqn:E; [|reflexivity].
  exfalso. apply H. apply match_at_sound in E.
  destruct E as (w & s' & -> & _ & (F & L & _)).
  destruct w as [|a [|b [|c w]]]; simpl in L; try lia.
  inversion F as [|? ? Ha F1]; subst. inversion F1 as [|? ? Hb F2]; subst.
  inversion F2 as [|? ? Hc _]; subst.
  simpl in Ha, Hb, Hc. rewrite orb_false_r in Ha, Hb, Hc.
  apply char_eqb_eq in Ha, Hb, Hc. subst.
  exists pre, (w ++ s'). reflexivity.
Qed.

Lemma text_blocks_plain html_content :
  Forall (fun block => block <> [] /\ ~ In LF block)
         (text_blocks html_content).
Proof.
  apply Forall_forall. intros block H.
  apply text_blocks_ok in H. tauto.
Qed.

(** X5. The rendered body is the blocks with one blank line between
    them, or the placeholder: it never has three newlines in a row, and
    the last substitution of the function (line 139) changes nothing. *)
Theorem text_content_blank_line_between_blocks :
  forall text,
    text_content text =
    match content_match text with
    | Some m => join [LF; LF] (text_blocks (group m 1))
    | None => u "Could not extract article content."
    end /\
    ~ occurs [LF; LF; LF] (text_content text).
Proof.
  intros text. unfold text_content.
  destruct (content_match text) as [m|].
  - assert (H : ~ occurs [LF; LF; LF]
                  (join [LF; LF] (text_blocks (group m 1)))).
    { apply lf_runs_no_triple, join_lf_runs, text_blocks_plain. }
    rewrite sub_newlines3_id by exact H. split; [reflexivity | exact H].
  - split; [reflexivity|]. apply lf_runs_no_triple. reflexivity.
Qed.

(** Splitting at blank lines. *)
Lemma split_blank_text p :
  ~ In LF p -> split_blank_lines p = [p].
Proof.
  induction p as [|c p IH]; intros H; [reflexivity|].
  assert (Hc : char_eqb c LF = false).
  { apply char_eqb_neq. intros ->. apply H; left; reflexivity. }
  assert (Hp : ~ In LF p) by (intros Hin; apply H; right; exact Hin).
  cbn [split_blank_lines]. rewrite Hc, (IH Hp). simpl.
  destruct p; reflexivity.
Qed.

Lemma split_blank_block p t :
  ~ In LF p -> p <> [] ->
  split_blank_lines (p ++ [LF; LF] ++ t) = p :: split_blank_lines t.
Proof.
  induction p as [|c p IH]; intros H Hne; [congruence|].
  assert (Hc : char_eqb c LF = false).
  { apply char_eqb_neq. intros ->. apply H; left; reflexivity. }
  assert (Hp : ~ In LF p) by (intros Hin; apply H; right; exact Hin).
  destruct p as [|d p].
  - simpl. rewrite Hc. simpl. reflexivity.
  - change ((c :: d :: p) ++ [LF; LF] ++ t)
      with (c :: (d :: p) ++ [LF; LF] ++ t).
    cbn [split_blank_lines]. simpl app at 1. rewrite Hc. simpl andb.
    change (d :: p ++ [LF; LF] ++ t) with ((d :: p) ++ [LF; LF] ++ t).
    rewrite IH by (auto; discriminate). reflexivity.
Qed.

Lemma split_blank_join blocks :
  blocks <> [] ->
  Forall (fun block => block <> [] /\ ~ In LF block) blocks ->
  split_blank_lines (join [LF; LF] blocks) = blocks.
Proof.
  intros Hne F. induction F as [|p blocks [Hp Hlf] F IH]; [congruence|].
  destruct blocks as [|q rest].
  - simpl. now apply split_blank_text.
  - change (join [LF; LF] (p :: q :: rest))
      with (p ++ [LF; LF] ++ join [LF; LF] (q :: rest)).
    rewrite split_blank_block by assumption.
    rewrite IH by discriminate. reflexivity.
Qed.

(** X6. When the extractor gives at least one block, splitting the
    rendered body at its blank lines gives the blocks back: a blank line
    of the body is always the boundary of two blocks. *)
Theorem text_blocks_recovered_from_body :
  forall html_content,
    text_blocks html_content <> [] ->
    split_blank_lines (join [LF; LF] (text_blocks html_content)) =
    text_blocks html_content.
Proof.
  intros html_content H. apply split_blank_join; [exact H|].
  apply text_blocks_plain.
Qed.

(** A heading, a paragraph over two lines and an item. *)
Lemma text_blocks_recovered_from_body_witness :
  split_blank_lines
    (join [LF; LF]
          (text_blocks (u "<h2>Plan</h2><p>one" ++ [LF] ++ u "two</p><li>x</li>"))) =
  text_blocks (u "<h2>Plan</h2><p>one" ++ [LF] ++ u "two</p><li>x</li>").
Proof.
  apply (@text_blocks_recovered_from_body
           (u "<h2>Plan</h2><p>one" ++ [LF] ++ u "two</p><li>x</li>")).
  vm_compute. discriminate.
Defined.

(** X7. The title of a record is one line: it has no newline, no
    whitespace at either end, and no two whitespace characters in a
    row. *)
Theorem extract_title_one_line :
  forall text,
    ~ In LF (extract_title text) /\
    isspace (hd 0%N (extract_title text)) = false /\
    isspace (last (extract_title text) 0%N) = false /\
    single_spaced (extract_title text) = true.
Proof.
  intros text. unfold extract_title.
  destruct (search title_pattern text) as [m|].
  - repeat split.
    + apply clean_no_newline.
    + apply clean_head.
    + apply clean_last.
    + apply clean_single_spaced.
  - repeat split; try (vm_compute; reflexivity).
    vm_compute. intuition discriminate.
Qed.

(** *** Text outside elements, and elements that are cut out *)

(** Every pattern of the extractor begins with the opening bracket. *)
Lemma lt_pattern_miss w r c s :
  c <> ch "<" -> match_at (Lit (ch "<" :: w) ;; r) (c :: s) = None.
Proof.
  intros H. unfold match_at. rewrite bt_Cat. apply bt_Lit_miss.
  apply strip_prefix_head_neq. congruence.
Qed.

Lemma sub_skip_text w r repl x s :
  ~ In (ch "<") x ->
  sub (Lit (ch "<" :: w) ;; r) repl (x ++ s) =
  x ++ sub (Lit (ch "<" :: w) ;; r) repl s.
Proof.
  induction x as [|c x IH]; intros H; [reflexivity|].
  simpl app. rewrite sub_miss.
  - rewrite IH; [reflexivity|]. intros Hin. apply H; right; exact Hin.
  - simpl. lia.
  - apply lt_pattern_miss. intros ->. apply H; left; reflexivity.
Qed.

Lemma findall1_skip_text w r x s :
  ~ In (ch "<") x ->
  findall1 (Lit (ch "<" :: w) ;; r) (x ++ s) =
  findall1 (Lit (ch "<" :: w) ;; r) s.
Proof.
  induction x as [|c x IH]; intros H; [reflexivity|].
  simpl app. rewrite findall1_miss.
  - apply IH. intros Hin. apply H; right; exact Hin.
  - simpl. lia.
  - apply lt_pattern_miss. intros ->. apply H; left; reflexivity.
Qed.

Lemma remove_non_content_skip_text x s :
  ~ In (ch "<") x ->
  remove_non_content (x ++ s) = x ++ remove_non_content s.
Proof.
  intros H. unfold remove_non_content.
  change script_pattern with (Lit (ch "<" :: u "script") ;;
    Rep not_gt 0 false ;; Lit (u ">") ;; Rep Dot 0 false ;; Lit (u "</script>")).
  change style_pattern with (Lit (ch "<" :: u "style") ;;
    Rep not_gt 0 false ;; Lit (u ">") ;; Rep Dot 0 false ;; Lit (u "</style>")).
  change svg_pattern with (Lit (ch "<" :: u "svg") ;;
    Rep not_gt 0 false ;; Lit (u ">") ;; Rep Dot 0 false ;; Lit (u "</svg>")).
  change figure_pattern with (Lit (ch "<" :: u "figure") ;;
    Rep not_gt 0 false ;; Lit (u ">") ;; Rep Dot 0 false ;; Lit (u "</figure>")).
  now rewrite !sub_skip_text by assumption.
Qed.

Lemma block_patterns_skip_text r x s :
  In r block_patterns -> ~ In (ch "<") x ->
  findall1 r (x ++ s) = findall1 r s.
Proof.
  intros Hr H. simpl in Hr.
  repeat (destruct Hr as [<- | Hr];
          [ match goal with
            | |- findall1 ?p _ = _ =>
                let p' := eval cbv in p in
                match p' with
                | Cat (Lit (_ :: ?w)) ?r' =>
                    change p with (Lit (ch "<" :: w) ;; r')
                end
            end; now apply findall1_skip_text
          | ]).
  destruct Hr.
Qed.

(** What the blocks depend on. *)
Lemma text_blocks_same_scan t t' :
  remove_non_content t = remove_non_content t' ->
  text_blocks t = text_blocks t'.
Proof. intros H. rewrite !text_blocks_groups. now rewrite H. Qed.

Lemma text_blocks_settled_tail a t t' :
  settled a ->
  (forall r, In r block_patterns ->
             findall1 r (remove_non_content t) =
             findall1 r (remove_non_content t')) ->
  text_blocks (a ++ t) = text_blocks (a ++ t').
Proof.
  intros [Hr Hf] H. rewrite !text_blocks_groups, !Hr.
  cbn [flat_map]. use_settled Hf.
  rewrite !H by (simpl; tauto). reflexivity.
Qed.

(** X8. Text that stands between the elements of a fragment, outside
    any tag, gives no block and changes none: the extractor only keeps
    what is inside headings, paragraphs and list items. *)
Theorem text_outside_elements_dropped :
  forall a x b,
    settled a -> ~ In (ch "<") x ->
    text_blocks (a ++ x ++ b) = text_blocks (a ++ b).
Proof.
  intros a x b Ha Hx. apply text_blocks_settled_tail; [exact Ha|].
  intros r Hr. rewrite remove_non_content_skip_text by assumption.
  now apply block_patterns_skip_text.
Qed.

(** Loose text between two paragraphs. *)
Lemma text_outside_elements_dropped_witness :
  text_blocks (u "<p>B</p>" ++ u " loose text " ++ u "<p>D</p>") =
  text_blocks (u "<p>B</p>" ++ u "<p>D</p>").
Proof.
  apply (@text_outside_elements_dropped (u "<p>B</p>") (u " loose text ")
                                        (u "<p>D</p>")).
  - exact settled_paragraph.
  - vm_compute. intuition discriminate.
Defined.

Lemma sub_hit r repl w s g :
  0 < min_len r -> w <> [] ->
  match_at r (w ++ s) = Some (length w, g) ->
  sub r repl (w ++ s) = repl ++ sub r repl s.
Proof.
  intros Hr Hw E. pose proof (@sub_step r repl (w ++ s) Hr) as H.
  rewrite E in H. destruct H as (w' & s' & E' & _ & L & _ & ->).
  apply app_same_length in E'; [|exact L]. destruct E' as [_ ->].
  reflexivity.
Qed.

Lemma cut_match name attrs x b :
  ~ In (ch ">") attrs ->
  (forall i1 i2, x = i1 ++ i2 -> i2 <> [] ->
                 strip_prefix (u "</" ++ name ++ u ">")
                              (i2 ++ (u "</" ++ name ++ u ">") ++ b) = None) ->
  match_at (cut_pattern name) (element name attrs x ++ b) =
  Some (length (element name attrs x), []).
Proof.
  intros Ha Hx.
  replace (element name attrs x ++ b)
    with ((u "<" ++ name) ++ attrs ++ u ">" ++ x ++
          (u "</" ++ name ++ u ">") ++ b)
    by (unfold element; rewrite <- !app_assoc; reflexivity).
  unfold match_at, cut_pattern.
  rewrite bt_Cat, bt_Lit_app, bt_Cat, bt_Rep_lazy.
  apply rep_lazy_hit.
  - now apply Forall_not_gt.
  - intros a1 a2 -> Hne. rewrite bt_Cat. apply bt_Lit_miss.
    destruct a2 as [|y a2]; [congruence|].
    apply (@strip_prefix_head_neq (ch ">") y). intros <-. apply Ha.
    apply in_or_app; right; left; reflexivity.
  - rewrite bt_Cat, bt_Lit_app, bt_Cat, bt_Rep_lazy.
    apply rep_lazy_hit.
    + rewrite Forall_forall. reflexivity.
    + intros i1 i2 -> Hne. apply bt_Lit_miss. now apply (Hx i1).
    + rewrite bt_Lit_app. f_equal. f_equal.
      unfold element. rewrite !length_app. simpl. lia.
Qed.

Lemma cut_sub name attrs x b repl :
  ~ In (ch ">") attrs ->
  (forall i1 i2, x = i1 ++ i2 -> i2 <> [] ->
                 strip_prefix (u "</" ++ name ++ u ">")
                              (i2 ++ (u "</" ++ name ++ u ">") ++ b) = None) ->
  sub (cut_pattern name) repl (element name attrs x ++ b) =
  repl ++ sub (cut_pattern name) repl b.
Proof.
  intros Ha Hx.
  apply (@sub_hit (cut_pattern name) repl (element name attrs x) b []).
  - simpl. lia.
  - discriminate.
  - now apply cut_match.
Qed.

(** A closing tag does not start inside text that has no bracket. *)
Lemma close_not_in_text name x b :
  ~ In (ch "<") x ->
  forall i1 i2, x = i1 ++ i2 -> i2 <> [] ->
                strip_prefix (u "</" ++ name ++ u ">")
                             (i2 ++ (u "</" ++ name ++ u ">") ++ b) = None.
Proof.
  intros H i1 i2 -> Hne. destruct i2 as [|c i2]; [congruence|].
  apply (@strip_prefix_head_neq (ch "<") c). intros <-. apply H.
  apply in_or_app; right; left; reflexivity.
Qed.

(** The script pass is the first one: whatever a script holds goes with
    it. *)
Lemma remove_non_content_script attrs x b :
  ~ In (ch ">") attrs ->
  find (u "</script>") (x ++ u "</script>" ++ b) = Some (length x) ->
  remove_non_content (element (u "script") attrs x ++ b) =
  remove_non_content b.
Proof.
  intros Ha Hx. unfold remove_non_content.
  change script_pattern with (cut_pattern (u "script")).
  rewrite cut_sub; [reflexivity | exact Ha |].
  apply (@find_first_occurrence (u "</script>") x b Hx).
Qed.

(** X9. A script element is cut out with all it holds, markup
    included: put between the elements of a fragment it gives no block
    and changes none. *)
Theorem script_elements_give_no_block :
  forall a attrs content b,
    settled a -> ~ In (ch ">") attrs ->
    find (u "</script>") (content ++ u "</script>" ++ b) =
      Some (length content) ->
    text_blocks (a ++ element (u "script") attrs content ++ b) =
    text_blocks (a ++ b).
Proof.
  intros a attrs content b Ha Hattrs Hc.
  apply text_blocks_settled_tail; [exact Ha|]. intros r _.
  now rewrite remove_non_content_script.
Qed.

(** A script that writes a paragraph. *)
Lemma script_elements_give_no_block_witness :
  text_blocks (u "<p>B</p>" ++
               element (u "script") (u " type='text/javascript'")
                       (u "document.write('<p>no</p>');") ++
               u "<li>C</li>") =
  text_blocks (u "<p>B</p>" ++ u "<li>C</li>").
Proof.
  apply (@script_elements_give_no_block (u "<p>B</p>")).
  - exact settled_paragraph.
  - vm_compute. intuition discriminate.
  - vm_compute; reflexivity.
Defined.

Lemma sub_skip_text_of r repl x s :
  0 < min_len r ->
  (forall c t, c <> ch "<" -> match_at r (c :: t) = None) ->
  ~ In (ch "<") x ->
  sub r repl (x ++ s) = x ++ sub r repl s.
Proof.
  intros Hr Hopen. induction x as [|c x IH]; intros H; [reflexivity|].
  simpl app. rewrite sub_miss; auto.
  - rewrite IH; [reflexivity|]. intros Hin. apply H; right; exact Hin.
  - apply Hopen. intros ->. apply H; left; reflexivity.
Qed.

(** A pass goes over an element of another kind that holds only text. *)
Lemma sub_over_text_element r repl name attrs x b :
  0 < min_len r ->
  (forall c t, c <> ch "<" -> match_at r (c :: t) = None) ->
  (forall t, match_at r (ch "<" :: name ++ t) = None) ->
  (forall t, match_at r (ch "<" :: ch "/" :: t) = None) ->
  ~ In (ch "<") name -> ~ In (ch "<") attrs -> ~ In (ch "<") x ->
  sub r repl (element name attrs x ++ b) =
  element name attrs x ++ sub r repl b.
Proof.
  intros Hr Hopen H1 H2 Hn Ha Hx.
  set (T1 := name ++ attrs ++ u ">" ++ x).
  set (T2 := ch "/" :: name ++ u ">").
  assert (E : forall t, element name attrs x ++ t =
                        ch "<" :: T1 ++ ch "<" :: T2 ++ t).
  { intros t. unfold element, T1, T2.
    repeat first [rewrite <- app_assoc | progress simpl]. reflexivity. }
  assert (N1 : ~ In (ch "<") T1).
  { unfold T1. rewrite !in_app_iff. simpl. intuition discriminate. }
  assert (N2 : ~ In (ch "<") T2).
  { unfold T2. simpl. rewrite in_app_iff. simpl. intuition discriminate. }
  rewrite !E.
  rewrite sub_miss;
    [| exact Hr | unfold T1; rewrite <- app_assoc; apply H1].
  rewrite sub_skip_text_of by auto.
  rewrite sub_miss; [| exact Hr | unfold T2; apply H2].
  rewrite sub_skip_text_of by auto. reflexivity.
Qed.

Ltac other_kind :=
  first
    [ pattern_nonempty
    | intros; apply lt_pattern_miss; assumption
    | intros; reflexivity
    | vm_compute; intuition discriminate
    | assumption ].

(** The four passes take an element of their kinds away when it holds
    only text. *)
Lemma remove_non_content_cut name attrs x b :
  In name [u "script"; u "style"; u "svg"; u "figure"] ->
  ~ In (ch "<") attrs -> ~ In (ch ">") attrs -> ~ In (ch "<") x ->
  remove_non_content (element name attrs x ++ b) = remove_non_content b.
Proof.
  intros Hn Ha Ha' Hx.
  unfold remove_non_content. simpl in Hn.
  destruct Hn as [<- | [<- | [<- | [<- | []]]]].
  - change script_pattern with (cut_pattern (u "script")).
    rewrite cut_sub by first [assumption | now apply close_not_in_text].
    reflexivity.
  - rewrite (@sub_over_text_element script_pattern) by other_kind.
    change style_pattern with (cut_pattern (u "style")).
    rewrite cut_sub by first [assumption | now apply close_not_in_text].
    reflexivity.
  - rewrite (@sub_over_text_element script_pattern) by other_kind.
    rewrite (@sub_over_text_element style_pattern) by other_kind.
    change svg_pattern with (cut_pattern (u "svg")).
    rewrite cut_sub by first [assumption | now apply close_not_in_text].
    reflexivity.
  - rewrite (@sub_over_text_element script_pattern) by other_kind.
    rewrite (@sub_over_text_element style_pattern) by other_kind.
    rewrite (@sub_over_text_element svg_pattern) by other_kind.
    change figure_pattern with (cut_pattern (u "figure")).
    rewrite cut_sub by first [assumption | now apply close_not_in_text].
    reflexivity.
Qed.

(** X10. A script, style, svg or figure element that holds only text,
    put between the elements of a fragment, gives no block and changes
    none. *)
Theorem cut_out_elements_give_no_block :
  forall name a attrs content b,
    In name [u "script"; u "style"; u "svg"; u "figure"] ->
    settled a ->
    ~ In (ch "<") attrs -> ~ In (ch ">") attrs -> ~ In (ch "<") content ->
    text_blocks (a ++ element name attrs content ++ b) =
    text_blocks (a ++ b).
Proof.
  intros name a attrs content b Hn Ha H1 H2 H3.
  apply text_blocks_settled_tail; [exact Ha|]. intros r _.
  now rewrite remove_non_content_cut.
Qed.

(** A figure with a caption between a paragraph and a list item. *)
Lemma cut_out_elements_give_no_block_witness :
  text_blocks (u "<p>B</p>" ++
               element (u "figure") (u " class='chart'") (u "ES levels") ++
               u "<li>C</li>") =
  text_blocks (u "<p>B</p>" ++ u "<li>C</li>").
Proof.
  apply (@cut_out_elements_give_no_block (u "figure") (u "<p>B</p>")).
  - simpl; auto.
  - exact settled_paragraph.
  - vm_compute. intuition discriminate.
  - vm_compute. intuition discriminate.
  - vm_compute. intuition discriminate.
Defined.

(** *** The entries of the index and the article the tool picks *)

Lemma split_no_sep sep s : ~ In sep s -> split sep s = [s].
Proof.
  induction s as [|c s IH]; intros H; [reflexivity|]. simpl.
  destruct (char_eqb c sep) eqn:E.
  - apply char_eqb_eq in E. subst c. exfalso. apply H; left; reflexivity.
  - rewrite IH; [reflexivity|]. intros Hin. apply H; right; exact Hin.
Qed.

Lemma split_front sep pre s :
  exists front,
    front <> [] /\ split sep (pre ++ sep :: s) = front ++ split sep s.
Proof.
  induction pre as [|c pre (front & Hf & IH)]; simpl.
  - rewrite char_eqb_refl. exists [[]]. split; [discriminate | reflexivity].
  - destruct (char_eqb c sep).
    + exists ([] :: front). split; [discriminate|]. now rewrite IH.
    + rewrite IH. destruct front as [|f fs]; [congruence|].
      exists ((c :: f) :: fs). split; [discriminate | reflexivity].
Qed.

Lemma last_app_nonempty (A : Type) (l1 l2 : list A) d :
  l2 <> [] -> last (l1 ++ l2) d = last l2 d.
Proof.
  intros H. induction l1 as [|x l1 IH]; [reflexivity|].
  simpl. rewrite IH. destruct (l1 ++ l2) eqn:E; [|reflexivity].
  apply app_eq_nil in E. destruct E; congruence.
Qed.

Lemma last_split sep pre s :
  ~ In sep s -> last (split sep (pre ++ sep :: s)) [] = s.
Proof.
  intros H. destruct (split_front sep pre s) as (front & _ & ->).
  rewrite split_no_sep by assumption.
  rewrite last_app_nonempty by discriminate. reflexivity.
Qed.

Lemma post_url_slug url :
  post_url url ->
  exists slug,
    url = TRADE_COMPANION_URL ++ u "/p/" ++ slug /\
    last (split (ch "/") url) [] = slug.
Proof.
  intros (slug & -> & _ & F). exists slug. split; [reflexivity|].
  replace (TRADE_COMPANION_URL ++ u "/p/" ++ slug)
    with ((TRADE_COMPANION_URL ++ u "/p") ++ ch "/" :: slug)
    by (rewrite <- app_assoc; reflexivity).
  apply last_split.
  intros Hin. rewrite Forall_forall in F. apply F in Hin.
  destruct Hin as [Hs _]. congruence.
Qed.

Lemma articles_map str_title text :
  articles_of_response str_title text =
  map (article_entry str_title) (unique_urls (article_urls text)).
Proof. unfold articles_of_response. now rewrite fold_left_append_map. Qed.

Lemma articles_post_url str_title text s :
  In s (articles_of_response str_title text) ->
  s = article_entry str_title (s_url s) /\ post_url (s_url s) /\
  ~ occurs excluded_slug (s_url s).
Proof.
  rewrite articles_map. intros H. apply in_map_iff in H.
  destruct H as (url & <- & H). simpl. split; [reflexivity|].
  apply unique_urls_In, article_urls_In in H. destruct H as [H E].
  split; [|exact E]. eapply findall0_post_url; eauto.
Qed.

(** X11. Every entry of the index carries the URL it was made from,
    a title made from the slug of that URL (what follows [/p/], hyphens
    turned into spaces, title-cased), and an empty date and preview. *)
Theorem index_entries_titled_by_slug :
  forall (str_title : str -> str) text s,
    In s (articles_of_response str_title text) ->
    exists slug,
      s_url s = TRADE_COMPANION_URL ++ u "/p/" ++ slug /\
      s_title s = str_title (replace (ch "-") (ch " ") slug) /\
      s_date s = [] /\ s_preview s = [].
Proof.
  intros str_title text s H. apply articles_post_url in H.
  destruct H as (E & P & _).
  destruct (post_url_slug P) as (slug & Eu & Es).
  exists slug. split; [exact Eu|]. rewrite E. simpl.
  repeat split. do 2 f_equal. exact Es.
Qed.

(** The entry of one post, with a stand-in for [str.title]. *)
Lemma index_entries_titled_by_slug_witness :
  exists slug,
    u "https://tradecompanion.substack.com/p/spx-levels-today" =
      TRADE_COMPANION_URL ++ u "/p/" ++ slug /\
    u "spx levels today" = replace (ch "-") (ch " ") slug /\
    (@nil char) = [] /\ (@nil char) = [].
Proof.
  apply (@index_entries_titled_by_slug
           (fun s => s)
           (u "<a href='https://tradecompanion.substack.com/p/spx-levels-today'>")
           (Summary (u "spx levels today")
                    (u "https://tradecompanion.substack.com/p/spx-levels-today")
                    [] [])).
  vm_compute. left; reflexivity.
Defined.

Lemma fold_unique_head l :
  forall x acc,
    hd_error
      (fold_left
         (fun unique_urls url =>
            if negb (existsb (str_eqb url) unique_urls)
            then unique_urls ++ [url] else unique_urls)
         l (x :: acc)) = Some x.
Proof.
  induction l as [|y l IH]; intros x acc; [reflexivity|].
  cbn [fold_left].
  destruct (negb (existsb (str_eqb y) (x :: acc))); apply IH.
Qed.

Lemma unique_urls_hd l : hd_error (unique_urls l) = hd_error l.
Proof.
  destruct l as [|x l]; [reflexivity|]. unfold unique_urls. simpl.
  apply fold_unique_head.
Qed.

Lemma filter_all (A : Type) (f : A -> bool) l :
  (forall x, In x l -> f x = true) -> filter f l = l.
Proof.
  induction l as [|x l IH]; intros H; [reflexivity|]. simpl.
  rewrite (H x) by (left; reflexivity). f_equal. apply IH.
  intros y Hy. apply H. right; exact Hy.
Qed.

Lemma hd_filter_find (A : Type) (f : A -> bool) l :
  hd_error (filter f l) = List.find f l.
Proof.
  induction l as [|x l IH]; [reflexivity|]. simpl.
  destruct (f x); [reflexivity | exact IH].
Qed.

Lemma first_url_found text :
  hd_error (unique_urls (article_urls text)) =
  List.find kept (findall0 url_pattern text).
Proof.
  rewrite unique_urls_hd, article_urls_filter.
  rewrite (@filter_all _ _ (findall0 url_pattern text)).
  - apply hd_filter_find.
  - intros url H. apply post_url_guard. eapply findall0_post_url; eauto.
Qed.

(** X12. The first entry of the index, which the tool takes for the
    latest article, is the leftmost post URL of the page that does not
    hold the excluded slug; there is no entry exactly when the page has
    no such URL. *)
Theorem first_entry_is_leftmost_kept_url :
  forall (str_title : str -> str) text,
    hd_error (map s_url (articles_of_response str_title text)) =
    List.find kept (findall0 url_pattern text).
Proof.
  intros str_title text. rewrite articles_urls. apply first_url_found.
Qed.

Lemma find_kept_sound text url :
  List.find kept (findall0 url_pattern text) = Some url ->
  post_url url /\ ~ occurs excluded_slug url.
Proof.
  intros H. apply find_some in H. destruct H as [Hin Hk]. split.
  - eapply findall0_post_url; eauto.
  - apply contains_occurs_false. unfold kept in Hk.
    now apply negb_true_iff in Hk.
Qed.

(** X13. When the cookies can be read and the index page is fetched, the
    tool asks for one article only, the leftmost post URL of the page
    without the excluded slug, and answers with that article formatted,
    or with the failure message when the request fails; when the page has
    no such URL it answers with the unavailability message. The URL it
    asks for has the canonical shape and is never the excluded article. *)
Theorem tool_reads_leftmost_kept_article :
  forall (str_title : str -> str) w cookies text,
    get_cookies_dict w = Ok cookies ->
    http_get w TRADE_COMPANION_URL cookies = Some text ->
    get_latest_trade_companion_adam_mancini_article str_title w =
    Ok match List.find kept (findall0 url_pattern text) with
       | None => unavailable_message
       | Some url =>
           match http_get w url cookies with
           | None => failed_message
           | Some page => formatted_article (article_of_response page) url
           end
       end /\
    (forall url,
        List.find kept (findall0 url_pattern text) = Some url ->
        post_url url /\ ~ occurs excluded_slug url).
Proof.
  intros str_title w cookies text Hc Hg.
  split; [|intros url; apply find_kept_sound].
  assert (H : cookies_at w <> Malformed).
  { unfold get_cookies_dict in Hc. intros E. rewrite E in Hc. discriminate. }
  destruct (latest_article_returns str_title w H) as (cookies' & E' & ->).
  rewrite Hc in E'. inversion E'; subst cookies'. rewrite Hg. f_equal.
  rewrite <- (first_url_found text), <- (articles_urls str_title).
  destruct (articles_of_response str_title text) as [|latest rest];
    reflexivity.
Qed.

(** A run in which the excluded article comes first on the page. *)
Lemma tool_reads_leftmost_kept_article_witness :
  get_latest_trade_companion_adam_mancini_article
    (fun s => s)
    (World NoFile
       (fun url _ =>
          if str_eqb url TRADE_COMPANION_URL
          then Some (u "<a href='https://tradecompanion.substack.com/p/my-trade-methodology-fundamentals'> <a href='https://tradecompanion.substack.com/p/plan'>")
          else if str_eqb url (u "https://tradecompanion.substack.com/p/plan")
               then Some (u "<h1>Plan</h1><article><p>Buy.</p></article>")
               else None)) =
  Ok (formatted_article
        (Article (u "Plan") (u "Adam Mancini") [] (u "Buy."))
        (u "https://tradecompanion.substack.com/p/plan")).
Proof.
  refine (eq_trans
            (proj1 (@tool_reads_leftmost_kept_article
                      (fun s => s)
                      (World NoFile
                         (fun url _ =>
                            if str_eqb url TRADE_COMPANION_URL
                            then Some (u "<a href='https://tradecompanion.substack.com/p/my-trade-methodology-fundamentals'> <a href='https://tradecompanion.substack.com/p/plan'>")
                            else if str_eqb url (u "https://tradecompanion.substack.com/p/plan")
                                 then Some (u "<h1>Plan</h1><article><p>Buy.</p></article>")
                                 else None))
                      []
                      (u "<a href='https://tradecompanion.substack.com/p/my-trade-methodology-fundamentals'> <a href='https://tradecompanion.substack.com/p/plan'>")
                      eq_refl _)) _).
  - vm_compute; reflexivity.
  - vm_compute; reflexivity.
Defined.

(** *** The fallback container, and elements of other kinds *)

Lemma rendered_body text m :
  content_match text = Some m ->
  text_content text = join [LF; LF] (text_blocks (group m 1)).
Proof.
  intros H. unfold text_content. rewrite H.
  apply sub_newlines3_id, lf_runs_no_triple, join_lf_runs, text_blocks_plain.
Qed.

(** X14. When the container pattern finds nothing, the body is rendered
    from the first [article] element of the page: from what lies between
    the first closing bracket after the first [<article] and the first
    [</article>] after it; without such an element the body is the
    placeholder. *)
Theorem article_element_is_the_fallback :
  forall text,
    search content_pattern text = None ->
    text_content text =
    match first_inner (u "<article") (u "</article>") text with
    | Some inner => join [LF; LF] (text_blocks inner)
    | None => u "Could not extract article content."
    end.
Proof.
  intros text H.
  pose proof (@search_element (u "<article") (u "</article>") text) as S.
  change (element_pattern (u "<article") (u "</article>"))
    with article_pattern in S.
  destruct (search article_pattern text) as [m|] eqn:E.
  - rewrite S by (vm_compute; intuition discriminate).
    apply rendered_body. unfold content_match. now rewrite H, E.
  - rewrite S by (vm_compute; intuition discriminate).
    unfold text_content, content_match. now rewrite H, E.
Qed.

(** A page whose only container is an article. *)
Lemma article_element_is_the_fallback_witness :
  text_content (u "<div class='head'></div><article id='a'><h2>Plan</h2><p>Buy.</p></article>") =
  match first_inner (u "<article") (u "</article>")
          (u "<div class='head'></div><article id='a'><h2>Plan</h2><p>Buy.</p></article>") with
  | Some inner => join [LF; LF] (text_blocks inner)
  | None => u "Could not extract article content."
  end.
Proof.
  apply article_element_is_the_fallback. vm_compute; reflexivity.
Defined.

Lemma findall1_skip_text_of r x s :
  0 < min_len r ->
  (forall c t, c <> ch "<" -> match_at r (c :: t) = None) ->
  ~ In (ch "<") x ->
  findall1 r (x ++ s) = findall1 r s.
Proof.
  intros Hr Hopen. induction x as [|c x IH]; intros H; [reflexivity|].
  simpl app. rewrite findall1_miss; auto.
  - apply IH. intros Hin. apply H; right; exact Hin.
  - apply Hopen. intros ->. apply H; left; reflexivity.
Qed.

(** A scan goes over an element of another kind that holds only text. *)
Lemma findall1_over_text_element r name attrs x b :
  0 < min_len r ->
  (forall c t, c <> ch "<" -> match_at r (c :: t) = None) ->
  (forall t, match_at r (ch "<" :: name ++ t) = None) ->
  (forall t, match_at r (ch "<" :: ch "/" :: t) = None) ->
  ~ In (ch "<") name -> ~ In (ch "<") attrs -> ~ In (ch "<") x ->
  findall1 r (element name attrs x ++ b) = findall1 r b.
Proof.
  intros Hr Hopen H1 H2 Hn Ha Hx.
  set (T1 := name ++ attrs ++ u ">" ++ x).
  set (T2 := ch "/" :: name ++ u ">").
  assert (E : element name attrs x ++ b =
              ch "<" :: T1 ++ ch "<" :: T2 ++ b).
  { unfold element, T1, T2.
    repeat first [rewrite <- app_assoc | progress simpl]. reflexivity. }
  assert (N1 : ~ In (ch "<") T1).
  { unfold T1. rewrite !in_app_iff. simpl. intuition discriminate. }
  assert (N2 : ~ In (ch "<") T2).
  { unfold T2. simpl. rewrite in_app_iff. simpl. intuition discriminate. }
  rewrite E.
  rewrite findall1_miss;
    [| exact Hr | unfold T1; rewrite <- app_assoc; apply H1].
  rewrite findall1_skip_text_of by auto.
  rewrite findall1_miss; [| exact Hr | unfold T2; apply H2].
  now rewrite findall1_skip_text_of by auto.
Qed.

Lemma remove_non_content_over name attrs x b :
  In name [u "h1"; u "div"; u "span"; u "blockquote"; u "a"; u "strong";
           u "em"] ->
  ~ In (ch "<") attrs -> ~ In (ch "<") x ->
  remove_non_content (element name attrs x ++ b) =
  element name attrs x ++ remove_non_content b.
Proof.
  intros Hn Ha Hx. unfold remove_non_content. simpl in Hn.
  repeat (destruct Hn as [<- | Hn];
          [ rewrite (@sub_over_text_element script_pattern) by other_kind;
            rewrite (@sub_over_text_element style_pattern) by other_kind;
            rewrite (@sub_over_text_element svg_pattern) by other_kind;
            rewrite (@sub_over_text_element figure_pattern) by other_kind;
            reflexivity
          | ]).
  destruct Hn.
Qed.

Lemma block_patterns_over name attrs x b r :
  In name [u "h1"; u "div"; u "span"; u "blockquote"; u "a"; u "strong";
           u "em"] ->
  In r block_patterns ->
  ~ In (ch "<") attrs -> ~ In (ch "<") x ->
  findall1 r (element name attrs x ++ b) = findall1 r b.
Proof.
  intros Hn Hr Ha Hx. simpl in Hn, Hr.
  repeat (destruct Hn as [<- | Hn];
          [ repeat (destruct Hr as [<- | Hr];
                    [ apply findall1_over_text_element; other_kind | ]);
            destruct Hr
          | ]).
  destruct Hn.
Qed.

(** X15. An [h1], [div], [span], [blockquote], [a], [strong] or [em]
    element that holds only text and stands between the elements of a
    fragment gives no block and changes none: the title heading is not
    repeated in the body, and text that is in no heading of level 2 to 6,
    paragraph or list item is left out. *)
Theorem other_elements_give_no_block :
  forall name a attrs content b,
    In name [u "h1"; u "div"; u "span"; u "blockquote"; u "a"; u "strong";
             u "em"] ->
    settled a -> ~ In (ch "<") attrs -> ~ In (ch "<") content ->
    text_blocks (a ++ element name attrs content ++ b) =
    text_blocks (a ++ b).
Proof.
  intros name a attrs content b Hn Ha H1 H2.
  apply text_blocks_settled_tail; [exact Ha|]. intros r Hr.
  rewrite remove_non_content_over by assumption.
  now apply block_patterns_over.
Qed.

(** A title heading before the first paragraph. *)
Lemma other_elements_give_no_block_witness :
  text_blocks ([] ++ element (u "h1") (u " class='post-title'")
                             (u "Plan for Monday") ++ u "<p>Buy.</p>") =
  text_blocks ([] ++ u "<p>Buy.</p>").
Proof.
  apply (@other_elements_give_no_block (u "h1") []).
  - simpl; auto.
  - exact settled_nil.
  - vm_compute. intuition discriminate.
  - vm_compute. intuition discriminate.
Defined.
